(** * Pattern-based source repair scripts: a shallow embedding

    The repository holds four Python scripts (simple_fix.py, smart_fix.py,
    final_fix.py, final_precise_fix.py).  Each reads source files, pipes
    their text through an ordered list of [re.sub] calls and writes the
    result back.  This development embeds

    - the part of Python's regular-expression engine the scripts use
      (literals, one-character sets, greedy [*] and [+] over such sets,
      capturing groups, and the substitution loop of [re.sub]);
    - the rule tables of the four scripts, rule by rule;
    - the file handling around them ([fix_file], [fix_specific_errors],
      the [main] loops) over a small model of the disk: paths that may
      be links to one file, reads that fail, and writes that fail before
      or after the file has been truncated,

    and states the properties of the specification over it. *)

From Stdlib Require Import NArith Ascii String.
From stdpp Require Import gmap strings list.

(** ** Text *)

(** A Python [str] is a sequence of Unicode code points. *)
Definition char := N.
Definition text := list char.

Definition code (a : ascii) : char := N_of_ascii a.

(** ASCII literals of this file, as text. *)
Fixpoint txt (s : string) : text :=
  match s with
  | EmptyString => []
  | String a s' => code a :: txt s'
  end.

Definition dquote : ascii := ascii_of_N 34.

(** ** Character sets *)

Definition charset := char -> bool.

Definition chr (a : ascii) : charset := fun c => N.eqb c (code a).
Definition rng (lo hi : ascii) : charset :=
  fun c => N.leb (code lo) c && N.leb c (code hi).
Definition any_of (l : list charset) : charset :=
  fun c => existsb (fun f => f c) l.
(** A negated set, [[^...]]. *)
Definition not_of (l : list charset) : charset :=
  fun c => negb (any_of l c).

(** [\s] on a [str] pattern: the code points for which
    [Py_UNICODE_ISSPACE] holds. *)
Definition space : charset := fun c =>
  (N.leb 9 c && N.leb c 13) || (N.leb 28 c && N.leb c 32)
  || N.eqb c 133 || N.eqb c 160 || N.eqb c 5760
  || (N.leb 8192 c && N.leb c 8202)
  || N.eqb c 8232 || N.eqb c 8233 || N.eqb c 8239 || N.eqb c 8287
  || N.eqb c 12288.

(** [\w] on a [str] pattern: [Py_UNICODE_ISALNUM] or an underscore.  The
    classification of the ASCII code points is written out; the Unicode
    database of the interpreter decides the others, [alnum_hi]. *)
Definition alnum (alnum_hi : char -> bool) : charset := fun c =>
  if N.ltb c 128
  then rng "0" "9" c || rng "A" "Z" c || rng "a" "z" c
  else alnum_hi c.
Definition word (alnum_hi : char -> bool) : charset :=
  fun c => alnum alnum_hi c || chr "_" c.

(** ** Compiled patterns

    The operations mirror the opcodes [sre_compile] emits for the patterns
    of the scripts: [LITERAL], [IN], a greedy [MAX_REPEAT] whose body is
    one character wide, and [MARK] for the borders of a capturing group
    (mark [2g-2] opens group [g], mark [2g-1] closes it). *)
Inductive op :=
| Lit (c : char)
| In (f : charset)
| Repeat (min : nat) (f : charset)
| Mark (i : nat).

Definition pattern := list op.

Definition lit (s : string) : pattern := Lit <$> txt s.
Definition star (f : charset) : pattern := [Repeat 0 f].
Definition plus (f : charset) : pattern := [Repeat 1 f].
Definition one (f : charset) : pattern := [In f].
Definition grp (g : nat) (body : pattern) : pattern :=
  Mark (2 * g - 2) :: body ++ [Mark (2 * g - 1)].

(** ** Matching *)

(** The marks set so far, latest first: mark number and the text that was
    still ahead when the mark was passed. *)
Definition marks := list (nat * text).

(** Length of the longest run of characters of [f] at the head of [s]. *)
Fixpoint count (f : charset) (s : text) : nat :=
  match s with
  | c :: s' => if f c then S (count f s') else 0
  | [] => 0
  end.

(** Greedy repetition: try the rest of the pattern after [n] characters,
    then after [n-1], ..., down to [min]. *)
Fixpoint backoff {A} (k : text -> option A) (s : text) (min n : nat)
  : option A :=
  if n <? min then None else
  match k (drop n s) with
  | Some r => Some r
  | None => match n with
            | 0 => None
            | S n' => backoff k s min n'
            end
  end.

(** [run p s m ok]: match [p] at the head of [s]; the first success in
    backtracking order wins.  [ok] is the test made at the end of the
    pattern on the text left over. *)
Fixpoint run (p : pattern) (s : text) (m : marks) (ok : text -> bool)
  : option (marks * text) :=
  match p with
  | [] => if ok s then Some (m, s) else None
  | Lit c :: k =>
      match s with
      | x :: s' => if N.eqb x c then run k s' m ok else None
      | [] => None
      end
  | In f :: k =>
      match s with
      | x :: s' => if f x then run k s' m ok else None
      | [] => None
      end
  | Repeat min f :: k =>
      backoff (fun s' => run k s' m ok) s min (count f s)
  | Mark i :: k => run k s ((i, s) :: m) ok
  end.

(** A match at the head of [s].  With [must_advance] an empty match is
    refused, as after an empty match that ended at this position. *)
Definition exec (p : pattern) (s : text) (must_advance : bool)
  : option (marks * text) :=
  run p s [] (fun rest => negb (must_advance && (length rest =? length s))).

(** ** Replacement templates *)

Inductive piece :=
| PChar (c : char)
| PGroup (g : nat).

Definition template := list piece.

Definition digit_of (a : ascii) : option nat :=
  let n := nat_of_ascii a in
  if (48 <=? n) && (n <=? 57) then Some (n - 48) else None.

(** The templates of the scripts hold literal text and the group
    references [\1] to [\3]. *)
Fixpoint tpl (s : string) : template :=
  match s with
  | EmptyString => []
  | String "\" (String d s' as rest) =>
      match digit_of d with
      | Some g => PGroup g :: tpl s'
      | None => PChar (code "\") :: tpl rest
      end
  | String a s' => PChar (code a) :: tpl s'
  end.

Fixpoint mark_at (i : nat) (m : marks) : option text :=
  match m with
  | [] => None
  | (j, s) :: m' => if i =? j then Some s else mark_at i m'
  end.

(** Text of group [g]: what lies between its two marks; a group that did
    not take part in the match is empty. *)
Definition group (m : marks) (g : nat) : text :=
  match mark_at (2 * g - 2) m, mark_at (2 * g - 1) m with
  | Some a, Some b => take (length a - length b) a
  | _, _ => []
  end.

Fixpoint expand (t : template) (m : marks) : text :=
  match t with
  | [] => []
  | PChar c :: t' => c :: expand t' m
  | PGroup g :: t' => group m g ++ expand t' m
  end.

(** ** re.sub *)

(** What the substitution loop does at one position it reaches outside of
    a match: the text it emits there and the number of characters of [s]
    the match consumed.  After an empty match the engine tries the same
    position once more and then has to advance. *)
Definition at_pos (p : pattern) (t : template) (s : text) : text * nat :=
  match exec p s false with
  | None => ([], 0)
  | Some (m, rest) =>
      if length rest =? length s then
        match exec p s true with
        | Some (m', rest') =>
            (expand t m ++ expand t m', length s - length rest')
        | None => (expand t m, 0)
        end
      else (expand t m, length s - length rest)
  end.

(** [sub_from p t s skip]: [skip] characters of [s] still belong to the
    match replaced last.  Matches are searched left to right and do not
    overlap; text between matches is copied. *)
Fixpoint sub_from (p : pattern) (t : template) (s : text) (skip : nat)
  : text :=
  match skip, s with
  | S k, _ :: s' => sub_from p t s' k
  | S k, [] => []
  | 0, _ =>
      let '(out, n) := at_pos p t s in
      out ++ match s with
             | [] => []
             | c :: s' =>
                 match n with
                 | 0 => c :: sub_from p t s' 0
                 | S k => sub_from p t s' k
                 end
             end
  end.

Definition re_sub (p : pattern) (t : template) (s : text) : text :=
  sub_from p t s 0.

(** ** Rules *)

(** A rule: the regular expression as the script writes it (kept for
    reference), its compiled form, and the replacement template. *)
Record rule := Rule {
  rule_source : string;
  rule_pattern : pattern;
  rule_template : template
}.

Definition apply_rule (r : rule) (content : text) : text :=
  re_sub (rule_pattern r) (rule_template r) content.

(** [for pattern, replacement in replacements:
       content = re.sub(pattern, replacement, content)] *)
Definition apply_rules (rs : list rule) (content : text) : text :=
  foldl (fun content r => apply_rule r content) content rs.

Definition R (src : string) (p : pattern) (t : string) : rule :=
  Rule src p (tpl t).

(** ** simple_fix.py: the [replacements] table of [fix_file], lines 17-70 *)

Definition ident_start : charset := any_of [rng "a" "z"; rng "A" "Z"; chr "_"].
Definition ident_char : charset :=
  any_of [rng "a" "z"; rng "A" "Z"; rng "0" "9"; chr "_"].

Definition replacements : list rule :=
  [ (* line 19 *)
    R " =, " (lit " =, ") " => ";
    (* line 21 *)
    R "\(([^)]*) > ([^)]*)\)"
      (lit "(" ++ grp 1 (star (not_of [chr ")"])) ++ lit " > "
         ++ grp 2 (star (not_of [chr ")"])) ++ lit ")")
      "(\1, \2)";
    (* line 23 *)
    R ": ([^>]*) > ([a-zA-Z_][a-zA-Z0-9_]*:)"
      (lit ": " ++ grp 1 (star (not_of [chr ">"])) ++ lit " > "
         ++ grp 2 (one ident_start ++ star ident_char ++ lit ":"))
      ": \1, \2";
    (* lines 25, 26: a quote character, then [ > ] *)
    R "' > " (lit "' > ") "', ";
    Rule (String dquote " > ") (Lit (code dquote) :: lit " > ")
         (PChar (code dquote) :: tpl ", ");
    (* lines 28-30 *)
    R " > }" (lit " > }") ", }";
    R " > ]" (lit " > ]") ", ]";
    R " > \)" (lit " > )") ", )";
    (* lines 32, 33 *)
    R "on\('([^']*)' > "
      (lit "on('" ++ grp 1 (star (not_of [chr "'"])) ++ lit "' > ")
      "on('\1', ";
    R "handle\('([^']*)' > "
      (lit "handle('" ++ grp 1 (star (not_of [chr "'"])) ++ lit "' > ")
      "handle('\1', ";
    (* lines 35-38 *)
    R "string > " (lit "string > ") "string, ";
    R "number > " (lit "number > ") "number, ";
    R "boolean > " (lit "boolean > ") "boolean, ";
    R "unknown > " (lit "unknown > ") "unknown, ";
    (* line 40 *)
    R ", = " (lit ", = ") " >= ";
    (* lines 42-46 *)
    R "\[\] >" (lit "[] >") "[0] >";
    R "\[\]\)" (lit "[])") "[0])";
    R "\[\];" (lit "[];") "[0];";
    R "\[\] \|\| " (lit "[] || ") "[0] || ";
    R "\[\]\.value" (lit "[].value") "[0].value";
    (* line 48 *)
    R "Record<string > unknown>" (lit "Record<string > unknown>")
      "Record<string, unknown>";
    (* lines 50-61 *)
    R ": \(\): void =>" (lit ": (): void =>") ": () => ";
    R "get:, \(\): void =>" (lit "get:, (): void =>") "get: () => ";
    R "set: newData => \{;" (lit "set: newData => {;") "set: newData => {";
    R "} > timeout" (lit "} > timeout") "}, timeout";
    R "Platform\[0\]" (lit "Platform[0]") "Platform[]";
    R "Song\[0\]" (lit "Song[0]") "Song[]";
    R "string\[0\]" (lit "string[0]") "string[]";
    R ": number =, " (lit ": number =, ") ": number = ";
    R ": string =, " (lit ": string =, ") ": string = ";
    R ": boolean =, " (lit ": boolean =, ") ": boolean = ";
    R "watch\( \(\) => " (lit "watch( () => ") "watch(() => ";
    R "\{ data:, " (lit "{ data:, ") "{ data: ";
    (* lines 62-69 *)
    R ">=, " (lit ">=, ") ">= ";
    R "<=, " (lit "<=, ") "<= ";
    R ">, " (lit ">, ") "> ";
    R "<, " (lit "<, ") "< ";
    R "\+, " (lit "+, ") "+ ";
    R "-, " (lit "-, ") "- ";
    R "\*, " (lit "*, ") "* ";
    R "/, " (lit "/, ") "/ " ].

(** The text transformation of simple_fix.py's [fix_file], lines 73-74. *)
Definition simple_fix (content : text) : text :=
  apply_rules replacements content.

(** ** final_fix.py: the substitutions of the seven blocks of
    [fix_specific_errors] *)

(* lines 17, 18, 20 *)
Definition cache_rules : list rule :=
  [ R "if \(cleanedSize, " (lit "if (cleanedSize, ") "if (cleanedSize >= ";
    R "if \(cleanedCount, " (lit "if (cleanedCount, ") "if (cleanedCount > ";
    R "const toDelete: string\[\] = \[0\];"
      (lit "const toDelete: string[] = [0];")
      "const toDelete: string[] = [];" ].

(* lines 33, 34, 36, 38, 39 *)
Definition filemanager_rules : list rule :=
  [ R "\}\[\] = \[0\];" (lit "}[] = [0];") "}[] = [];";
    R "const mergedLines: string\[\] = \[0\];"
      (lit "const mergedLines: string[] = [0];")
      "const mergedLines: string[] = [];";
    R "as \{ name: string \}\[0\]" (lit "as { name: string }[0]")
      "as { name: string }[]";
    R "downloadStore\.get\('history', \[0\]\)"
      (lit "downloadStore.get('history', [0])")
      "downloadStore.get('history', [])";
    R "as Record<string, unknown>\[0\]" (lit "as Record<string, unknown>[0]")
      "as Record<string, unknown>[]" ].

(* lines 52, 53 *)
Definition tray_rules : list rule :=
  [ R "as MenuItemConstructorOptions\[0\]"
      (lit "as MenuItemConstructorOptions[0]")
      "as MenuItemConstructorOptions[]";
    R ": \[0\]\) as MenuItemConstructorOptions"
      (lit ": [0]) as MenuItemConstructorOptions")
      ": []) as MenuItemConstructorOptions[]" ].

(* lines 66, 67 *)
Definition windowsize_rules : list rule :=
  [ R "if \(scaleFactor, " (lit "if (scaleFactor, ") "if (scaleFactor > ";
    R "} else if \(scaleFactor, " (lit "} else if (scaleFactor, ")
      "} else if (scaleFactor > " ].

(* line 80 *)
Definition unblock_rules : list rule :=
  [ R "as unknown\[0\]" (lit "as unknown[0]") "as unknown[]" ].

(* line 93 *)
Definition preload_rules : list rule :=
  [ R "unknown\[0\]" (lit "unknown[0]") "unknown[]" ].

(* lines 106-110 *)
Definition apiresponses_rules : list rule :=
  [ R "Artist\[0\]" (lit "Artist[0]") "Artist[]";
    R "Album\[0\]" (lit "Album[0]") "Album[]";
    R "Playlist\[0\]" (lit "Playlist[0]") "Playlist[]";
    R "SongUrl\[0\]" (lit "SongUrl[0]") "SongUrl[]";
    R "unknown\[0\]" (lit "unknown[0]") "unknown[]" ].

(** ** smart_fix.py and final_precise_fix.py

    Their patterns use [\w], which looks characters up in the Unicode
    database of the interpreter: the rule tables are given for any such
    classification [alnum_hi] of the code points from 128 on. *)

Section Unicode.
Variable alnum_hi : char -> bool.

Let w : charset := word alnum_hi.
Let s : charset := space.

(** smart_fix.py, [fix_typescript_syntax], lines 12-58. *)
Definition typescript_rules : list rule :=
  [ (* 1, line 12 *)
    R "\(([^)]*):,\s*([^)]*)\)"
      (lit "(" ++ grp 1 (star (not_of [chr ")"])) ++ lit ":," ++ star s
         ++ grp 2 (star (not_of [chr ")"])) ++ lit ")")
      "(\1: \2)";
    (* 2, line 15 *)
    R "(\w+):,\s*(\w+)"
      (grp 1 (plus w) ++ lit ":," ++ star s ++ grp 2 (plus w))
      "\1: \2";
    (* 3, lines 18, 19 *)
    R "=>>" (lit "=>>") "=>";
    R "=>" (lit "=>") "=>";
    (* 4, lines 22, 23 *)
    R "watch\(\s*\(\)\s*=>\s*([^)]+)\(\)"
      (lit "watch(" ++ star s ++ lit "()" ++ star s ++ lit "=>" ++ star s
         ++ grp 1 (plus (not_of [chr ")"])) ++ lit "()")
      "watch(() => \1, ";
    R "watch\(\s*([^)]+)\(\)\s*=>"
      (lit "watch(" ++ star s ++ grp 1 (plus (not_of [chr ")"]))
         ++ lit "()" ++ star s ++ lit "=>")
      "watch(\1, ";
    (* 5, lines 26, 27 *)
    R "{\s*," (lit "{" ++ star s ++ lit ",") "{";
    R ":\s*\(\):\s*void\s*=>"
      (lit ":" ++ star s ++ lit "():" ++ star s ++ lit "void" ++ star s
         ++ lit "=>")
      ": () =>";
    (* 6, line 30 *)
    R "(\w+)\[0\]" (grp 1 (plus w) ++ lit "[0]") "\1[]";
    (* 7, lines 33, 34 *)
    R ">=>" (lit ">=>") ">=";
    R "<=>" (lit "<=>") "<=";
    (* 8, line 37 *)
    R "i\s*\+=>" (lit "i" ++ star s ++ lit "+=>") "i +=";
    (* 9, line 40 *)
    R "\(\s*([^,)]+),\s*([^)]+)\s*\)"
      (lit "(" ++ star s ++ grp 1 (plus (not_of [chr ","; chr ")"]))
         ++ lit "," ++ star s ++ grp 2 (plus (not_of [chr ")"])) ++ star s
         ++ lit ")")
      "(\1, \2)";
    (* 10, line 43 *)
    R "catch\s*\(\s*(\w+):,\s*(\w+)\s*\)"
      (lit "catch" ++ star s ++ lit "(" ++ star s ++ grp 1 (plus w)
         ++ lit ":," ++ star s ++ grp 2 (plus w) ++ star s ++ lit ")")
      "catch (\1: \2)";
    (* 11, line 46 *)
    R "inject<\([^)]*\|,\s*([^)]*)\)"
      (lit "inject<(" ++ star (not_of [chr ")"]) ++ lit "|," ++ star s
         ++ grp 1 (star (not_of [chr ")"])) ++ lit ")")
      "inject<(\1)";
    (* 12, line 49 *)
    R "\?\s*([^:]+)\s*:,\s*([^)]+)\)"
      (lit "?" ++ star s ++ grp 1 (plus (not_of [chr ":"])) ++ star s
         ++ lit ":," ++ star s ++ grp 2 (plus (not_of [chr ")"])) ++ lit ")")
      "? \1 : \2)";
    (* 13, line 52 *)
    R "const\s*{\s*([^:]+):,\s*([^}]+)\s*}"
      (lit "const" ++ star s ++ lit "{" ++ star s
         ++ grp 1 (plus (not_of [chr ":"])) ++ lit ":," ++ star s
         ++ grp 2 (plus (not_of [chr "}"])) ++ star s ++ lit "}")
      "const { \1: \2 }";
    (* 14, line 55 *)
    R "=\s*\[0\];" (lit "=" ++ star s ++ lit "[0];") "= [];";
    (* 15, line 58 *)
    R "\):\s*(\w+)\s*=>"
      (lit "):" ++ star s ++ grp 1 (plus w) ++ star s ++ lit "=>")
      "): \1 =>" ].

Definition fix_typescript_syntax (content : text) : text :=
  apply_rules typescript_rules content.

(** smart_fix.py, [fix_vue_syntax], lines 66-72. *)
Definition vue_rules : list rule :=
  [ R "watch\(\s*\(\)\s*=>\s*([^(]+)\(([^)]*)\)\s*=>"
      (lit "watch(" ++ star s ++ lit "()" ++ star s ++ lit "=>" ++ star s
         ++ grp 1 (plus (not_of [chr "("])) ++ lit "("
         ++ grp 2 (star (not_of [chr ")"])) ++ lit ")" ++ star s ++ lit "=>")
      "watch(() => \1, (\2) =>";
    R "\(e:,\s*([^)]+)\):\s*void;"
      (lit "(e:," ++ star s ++ grp 1 (plus (not_of [chr ")"])) ++ lit "):"
         ++ star s ++ lit "void;")
      "(e: \1): void;";
    R "computed\(\(\)\s*=>\s*\(([^)]*)\s*\?\s*([^:]*)\s*:,\s*([^)]*)\)"
      (lit "computed(()" ++ star s ++ lit "=>" ++ star s ++ lit "("
         ++ grp 1 (star (not_of [chr ")"])) ++ star s ++ lit "?" ++ star s
         ++ grp 2 (star (not_of [chr ":"])) ++ star s ++ lit ":," ++ star s
         ++ grp 3 (star (not_of [chr ")"])) ++ lit ")")
      "computed(() => (\1 ? \2 : \3)" ].

Definition fix_vue_syntax (content : text) : text :=
  apply_rules vue_rules content.

(** final_precise_fix.py, [fix_specific_typescript_errors], lines 13-37. *)
Definition precise_rules : list rule :=
  [ (* 1, line 13 *)
    R "\(([^)]*):,\s*([^)]*)\)"
      (lit "(" ++ grp 1 (star (not_of [chr ")"])) ++ lit ":," ++ star s
         ++ grp 2 (star (not_of [chr ")"])) ++ lit ")")
      "(\1: \2)";
    (* 2, line 16 *)
    R "(\w+):,\s*(\w+)"
      (grp 1 (plus w) ++ lit ":," ++ star s ++ grp 2 (plus w))
      "\1: \2";
    (* 3, line 20 *)
    R "watch\(\(\)\s*=>\s*([^,]+),\s*=>\s*\{"
      (lit "watch(()" ++ star s ++ lit "=>" ++ star s
         ++ grp 1 (plus (not_of [chr ","])) ++ lit "," ++ star s ++ lit "=>"
         ++ star s ++ lit "{")
      "watch(() => \1, () => {";
    (* 4, lines 23, 24 *)
    R "{\s*," (lit "{" ++ star s ++ lit ",") "{";
    R ",\s*}" (lit "," ++ star s ++ lit "}") "}";
    (* 5, lines 27, 28 *)
    R "(\w+)\[\]\s*;" (grp 1 (plus w) ++ lit "[]" ++ star s ++ lit ";")
      "\1[0];";
    R "(\w+)\[\]\." (grp 1 (plus w) ++ lit "[].") "\1[0].";
    (* 6, line 31 *)
    R "length,\s*0\)" (lit "length," ++ star s ++ lit "0)") "length > 0)";
    (* 7, line 34 *)
    R "\$\{(\w+)\[\]\.(\w+)\}"
      (lit "${" ++ grp 1 (plus w) ++ lit "[]." ++ grp 2 (plus w) ++ lit "}")
      "${\1[0].\2}";
    (* 8, line 37 *)
    R "\):\s*(\w+)\s*=>"
      (lit "):" ++ star s ++ grp 1 (plus w) ++ star s ++ lit "=>")
      "): \1 =>" ].

Definition fix_specific_typescript_errors (content : text) : text :=
  apply_rules precise_rules content.
End Unicode.

(** ** Files and effects *)

Definition path := text.

(** How a file takes [open(path, 'w')] followed by [f.write(content)]:
    the write goes through; or [open] itself raises and the file stays as
    it is; or [open] truncates the file and the write then raises, which
    leaves on disk whatever the device kept of the new text ([None] when
    what is left cannot be read back). *)
Inductive access :=
| Writable
| ReadOnly
| Failing (kept : text -> option text).

(** A file on disk.  [file_text] is what [f.read()] returns for it, or
    [None] when opening or decoding it raises. *)
Record file := File { file_text : option text; file_access : access }.

(** The disk: paths that are further names of a file (symbolic or hard
    links), each with the path the file is kept under, and the files.  A
    path without an entry in [links] names the file kept under itself. *)
Record disk := Disk { links : gmap path path; files : gmap path file }.

Definition target (d : disk) (p : path) : path := default p (links d !! p).

(** The file a path names, through a link if it is one. *)
Definition file_at (d : disk) (p : path) : option file :=
  files d !! target d p.

(** Put [f] where the path [p] points: every name of that file sees it. *)
Definition store (d : disk) (p : path) (f : file) : disk :=
  Disk (links d) (<[target d p := f]> (files d)).

Inductive exn :=
| ReadError (p : path)
| WriteError (p : path).

(** What the scripts print. *)
Inductive message :=
| MStart                         (* the banner of [main] *)
| MFound (n : nat)               (* number of candidate files *)
| MFixed (p : path)              (* repair done: p *)
| MUnchanged (p : path)          (* nothing to repair: p *)
| MFailed (p : path) (e : exn)   (* repair failed p: e *)
| MMissing (p : path)            (* file does not exist: p *)
| MSummary (n : nat)             (* number of files repaired *)
| MDone
| MTypecheck.

(** [Written p c]: a write of [c] through the path [p] that went through. *)
Inductive event :=
| Written (p : path) (c : text)
| Printed (m : message)
| System (cmd : string).

Record world := World { on_disk : disk; trace : list event }.

Inductive outcome (A : Type) :=
| Value (a : A)
| Raised (e : exn).
Arguments Value {A} a.
Arguments Raised {A} e.

(** A computation with effects on the world that may raise. *)
Definition io (A : Type) : Type := world -> outcome A * world.

Definition ret {A} (a : A) : io A := fun w => (Value a, w).

(** Sequencing: an exception ends the computation and keeps the effects
    made so far. *)
Definition bind {A B} (m : io A) (k : A -> io B) : io B :=
  fun w =>
    match m w with
    | (Value a, w') => k a w'
    | (Raised e, w') => (Raised e, w')
    end.

Declare Scope io_scope.
Delimit Scope io_scope with io.
Bind Scope io_scope with io.
Notation "x <- m ;; k" := (bind m (fun x => k))
  (at level 100, m at next level, k at level 200, right associativity)
  : io_scope.
Notation "m ;; k" := (bind m (fun _ => k))
  (at level 100, k at level 200, right associativity) : io_scope.
Open Scope io_scope.

(** [try: body / except Exception as e: handler]. *)
Definition try_except {A} (body : io A) (handler : exn -> io A) : io A :=
  fun w =>
    match body w with
    | (Value a, w') => (Value a, w')
    | (Raised e, w') => handler e w'
    end.

Definition emit (e : event) : io unit :=
  fun w => (Value tt, World (on_disk w) (trace w ++ [e])).
Definition print (m : message) : io unit := emit (Printed m).
Definition os_system (cmd : string) : io unit := emit (System cmd).

(** [os.path.exists] follows links; a link to nothing does not exist. *)
Definition os_path_exists (p : path) : io bool :=
  fun w => (Value (bool_decide (is_Some (file_at (on_disk w) p))), w).

(** [with open(p, 'r', encoding='utf-8') as f: content = f.read()] *)
Definition read_text (p : path) : io text :=
  fun w =>
    match file_at (on_disk w) p with
    | Some (File (Some c) _) => (Value c, w)
    | _ => (Raised (ReadError p), w)
    end.

(** [with open(p, 'w', encoding='utf-8') as f: f.write(content)]: the file
    the path names is written in place; a path that names no file gets a
    new one. *)
Definition write_text (p : path) (content : text) : io unit :=
  fun w =>
    match file_at (on_disk w) p with
    | Some (File _ ReadOnly) => (Raised (WriteError p), w)
    | Some (File _ (Failing kept)) =>
        (Raised (WriteError p),
         World (store (on_disk w) p (File (kept content) (Failing kept)))
               (trace w))
    | _ =>
        (Value tt,
         World (store (on_disk w) p (File (Some content) Writable))
               (trace w ++ [Written p content]))
    end.

Definition text_ne (a b : text) : bool := negb (bool_decide (a = b)).

(** [str.endswith]. *)
Definition endswith (p suffix : text) : bool :=
  (length suffix <=? length p)
  && bool_decide (drop (length p - length suffix) p = suffix).

(** The loop of the [main] functions:
    [for file_path in files: if fix_file(file_path): fixed_count += 1]. *)
Fixpoint count_fixed (fix_file : path -> io bool) (files_to_fix : list path)
    (fixed_count : nat) : io nat :=
  match files_to_fix with
  | [] => ret fixed_count
  | file_path :: rest =>
      changed <- fix_file file_path;;
      count_fixed fix_file rest
        (if changed then fixed_count + 1 else fixed_count)
  end.

(** The candidate files of simple_fix.py and smart_fix.py: the results of
    [glob.glob(pattern, recursive=True)] for each pattern, in one list,
    then [list(set(files_to_fix))].  [glob] stands for the directory tree
    the run finds, [list_of_set] for the order in which Python iterates
    over a set. *)
Definition resolve (glob : string -> list path)
    (list_of_set : gset path -> list path) (patterns : list string)
  : list path :=
  let files_to_fix := foldl (fun acc pattern => acc ++ glob pattern) [] patterns in
  list_of_set (list_to_set files_to_fix).

Module simple_fix.

(** [fix_file], lines 8-88. *)
Definition fix_file (file_path : path) : io bool :=
  try_except
    (content <- read_text file_path;;
     let original_content := content in
     let content := apply_rules replacements content in
     if text_ne content original_content then
       write_text file_path content;;
       print (MFixed file_path);;
       ret true
     else
       print (MUnchanged file_path);;
       ret false)
    (fun e => print (MFailed file_path e);; ret false).

Definition patterns : list string :=
  ["plugins/**/*.ts"; "src/**/*.ts"; "src/**/*.vue"; "src/**/*.d.ts"].

(** [main], lines 90-120. *)
Definition main (glob : string -> list path)
    (list_of_set : gset path -> list path) : io unit :=
  print MStart;;
  let files_to_fix := resolve glob list_of_set patterns in
  print (MFound (length files_to_fix));;
  fixed_count <- count_fixed fix_file files_to_fix 0;;
  print (MSummary fixed_count);;
  print MTypecheck;;
  os_system "npm run typecheck".

End simple_fix.

Module smart_fix.
Section Unicode.
Variable alnum_hi : char -> bool.

(** [fix_file], lines 76-102. *)
Definition fix_file (file_path : path) : io bool :=
  try_except
    (content <- read_text file_path;;
     let original_content := content in
     let content := fix_typescript_syntax alnum_hi content in
     let content :=
       if endswith file_path (txt ".vue") then fix_vue_syntax content
       else content in
     if text_ne content original_content then
       write_text file_path content;;
       print (MFixed file_path);;
       ret true
     else
       ret false)
    (fun e => print (MFailed file_path e);; ret false).

Definition patterns : list string :=
  ["src/**/*.ts"; "src/**/*.vue"; "plugins/**/*.ts"].

(** [main], lines 104-133. *)
Definition main (glob : string -> list path)
    (list_of_set : gset path -> list path) : io unit :=
  print MStart;;
  let files_to_fix := resolve glob list_of_set patterns in
  print (MFound (length files_to_fix));;
  fixed_count <- count_fixed fix_file files_to_fix 0;;
  print (MSummary fixed_count);;
  print MTypecheck;;
  os_system "npm run typecheck".
End Unicode.
End smart_fix.

Module final_precise_fix.
Section Unicode.
Variable alnum_hi : char -> bool.

(** [fix_file], lines 41-63. *)
Definition fix_file (file_path : path) : io bool :=
  try_except
    (content <- read_text file_path;;
     let original_content := content in
     let content := fix_specific_typescript_errors alnum_hi content in
     if text_ne content original_content then
       write_text file_path content;;
       print (MFixed file_path);;
       ret true
     else
       ret false)
    (fun e => print (MFailed file_path e);; ret false).

Definition problem_files : list path :=
  [ txt "src/main/lyric.ts";
    txt "src/main/modules/fileManager.ts";
    txt "src/main/modules/loginWindow.ts" ].

(** The loop of [main], lines 76-82. *)
Fixpoint fix_existing (files_to_fix : list path) (fixed_count : nat)
  : io nat :=
  match files_to_fix with
  | [] => ret fixed_count
  | file_path :: rest =>
      found <- os_path_exists file_path;;
      if found then
        changed <- fix_file file_path;;
        fix_existing rest (if changed then fixed_count + 1 else fixed_count)
      else
        print (MMissing file_path);;
        fix_existing rest fixed_count
  end.

(** [main], lines 65-88. *)
Definition main : io unit :=
  print MStart;;
  fixed_count <- fix_existing problem_files 0;;
  print (MSummary fixed_count);;
  print MTypecheck;;
  os_system "npm run typecheck".
End Unicode.
End final_precise_fix.

Module final_fix.

(** One block of [fix_specific_errors]: the file is rewritten whenever it
    exists; nothing catches an error. *)
Definition fix_block (target : path) (rules : list rule) : io unit :=
  found <- os_path_exists target;;
  if found then
    content <- read_text target;;
    let content := apply_rules rules content in
    write_text target content;;
    print (MFixed target)
  else ret tt.

Definition cache_file : path := txt "src/main/modules/cache.ts".
Definition filemanager_file : path := txt "src/main/modules/fileManager.ts".
Definition tray_file : path := txt "src/main/modules/tray.ts".
Definition windowsize_file : path := txt "src/main/modules/window-size.ts".
Definition unblock_file : path := txt "src/main/unblockMusic.ts".
Definition preload_file : path := txt "src/preload/index.ts".
Definition apiresponses_file : path :=
  txt "src/renderer/types/api-responses.ts".

(** [fix_specific_errors], lines 7-114. *)
Definition fix_specific_errors : io unit :=
  fix_block cache_file cache_rules;;
  fix_block filemanager_file filemanager_rules;;
  fix_block tray_file tray_rules;;
  fix_block windowsize_file windowsize_rules;;
  fix_block unblock_file unblock_rules;;
  fix_block preload_file preload_rules;;
  fix_block apiresponses_file apiresponses_rules.

(** [main], lines 116-124. *)
Definition main : io unit :=
  print MStart;;
  fix_specific_errors;;
  print MDone;;
  print MTypecheck;;
  os_system "npm run typecheck".

End final_fix.

(** ** Notions used by the statements *)

(** Does [p] match somewhere in [s]? *)
Fixpoint search (p : pattern) (s : text) : bool :=
  match exec p s false with
  | Some _ => true
  | None => match s with
            | [] => false
            | _ :: s' => search p s'
            end
  end.

(** No rule of the table has a match in [s]. *)
Definition untouched (rs : list rule) (s : text) : bool :=
  forallb (fun r => negb (search (rule_pattern r) s)) rs.

(** A literal character the pattern cannot match without. *)
Fixpoint has_lit (c : char) (p : pattern) : bool :=
  match p with
  | [] => false
  | Lit x :: k => N.eqb x c || has_lit c k
  | _ :: k => has_lit c k
  end.

(** The rule needs one of the characters [cs] to fire. *)
Definition triggered_by (cs : text) (r : rule) : bool :=
  existsb (fun c => has_lit c (rule_pattern r)) cs.

(** Comma, greater-than sign and opening bracket. *)
Definition triggers : text := txt ",>[".

(** None of the characters [cs] occurs in [s]. *)
Definition free_of (cs s : text) : bool :=
  forallb (fun c => negb (existsb (N.eqb c) s)) cs.

(** The rule tables of final_fix.py, block by block. *)
Definition final_fix_tables : list (list rule) :=
  [ cache_rules; filemanager_rules; tray_rules; windowsize_rules;
    unblock_rules; preload_rules; apiresponses_rules ].

(** [a] and [b] agree as far as both of them go: one is a prefix of the
    other. *)
Fixpoint agree (a b : text) : bool :=
  match a, b with
  | x :: a', y :: b' => N.eqb x y && agree a' b'
  | _, _ => true
  end.

(** The literal [P] cannot start at any position of [M], whatever text
    follows [M]. *)
Fixpoint no_start (P M : text) : bool :=
  match M with
  | [] => true
  | _ :: M' => negb (agree P M) && no_start P M'
  end.

(** No non-empty end of [v] can run into the head of [M]. *)
Fixpoint tails_clash (v M : text) : bool :=
  match v with
  | [] => true
  | _ :: v' => negb (agree v M) && tails_clash v' M
  end.

(** An occurrence of the literal [P] that starts in front of [M] cannot
    reach into [M]. *)
Definition no_left_overlap (P M : text) : bool :=
  match P with
  | [] => false
  | _ :: P' => tails_clash P' M
  end.

(** Can the pattern match the empty text?  (No pattern of the scripts
    can.) *)
Definition nullable (p : pattern) : bool :=
  forallb (fun o => match o with
                    | Lit _ | In _ => false
                    | Repeat min _ => min =? 0
                    | Mark _ => true
                    end) p.

(** The rule tables of the four scripts. *)
Definition all_tables (alnum_hi : char -> bool) : list (list rule) :=
  [ replacements; typescript_rules alnum_hi; vue_rules;
    precise_rules alnum_hi ] ++ final_fix_tables.

(** The characters a template writes itself. *)
Definition template_chars (t : template) : text :=
  flat_map (fun x => match x with PChar c => [c] | PGroup _ => [] end) t.

(** Printable ASCII: space to tilde. *)
Definition printable (c : char) : bool := N.leb 32 c && N.leb c 126.

(** The transformation smart_fix.py applies to the text of the file at
    [file_path] (lines 85-89 of [fix_file]). *)
Definition smart_repair (alnum_hi : char -> bool) (file_path : path)
    (content : text) : text :=
  let content := fix_typescript_syntax alnum_hi content in
  if endswith file_path (txt ".vue") then fix_vue_syntax content else content.

(** The shape the three [fix_file] functions share: they differ in the
    transformation and in whether an unchanged file is printed. *)
Definition fix_file_with (repair : path -> text -> text)
    (say_unchanged : bool) (file_path : path) : io bool :=
  try_except
    (content <- read_text file_path;;
     let original_content := content in
     let content := repair file_path content in
     if text_ne content original_content then
       write_text file_path content;;
       print (MFixed file_path);;
       ret true
     else
       (if say_unchanged then print (MUnchanged file_path) else ret tt);;
       ret false)
    (fun e => print (MFailed file_path e);; ret false).

(** The [fix_file] of simple_fix.py, smart_fix.py and final_precise_fix.py,
    each with the transformation it applies. *)
Definition variants (alnum_hi : char -> bool)
  : list ((path -> text -> text) * (path -> io bool)) :=
  [ (fun _ => simple_fix, simple_fix.fix_file);
    (smart_repair alnum_hi, smart_fix.fix_file alnum_hi);
    (fun _ => fix_specific_typescript_errors alnum_hi,
     final_precise_fix.fix_file alnum_hi) ].

(** [fix_file] returns [True] for this path: the file it names can be
    read, the rules alter its text, and the write goes through. *)
Definition fixable (repair : path -> text -> text) (d : disk) (p : path)
  : bool :=
  match file_at d p with
  | Some (File (Some c) Writable) => text_ne (repair p c) c
  | _ => false
  end.

(** The I/O error [fix_file] runs into at this path, if any. *)
Definition failure (repair : path -> text -> text) (d : disk) (p : path)
  : option exn :=
  match file_at d p with
  | Some (File (Some c) acc) =>
      if text_ne (repair p c) c then
        match acc with
        | Writable => None
        | _ => Some (WriteError p)
        end
      else None
  | _ => Some (ReadError p)
  end.

(** The file as [fix_file], called with the path [p], leaves it. *)
Definition repaired (repair : path -> text -> text) (p : path)
    (f : option file) : option file :=
  match f with
  | Some (File (Some c) Writable) => Some (File (Some (repair p c)) Writable)
  | Some (File (Some c) (Failing kept)) =>
      if text_ne (repair p c) c
      then Some (File (kept (repair p c)) (Failing kept))
      else f
  | _ => f
  end.

(** The disk after [fix_file] ran on [p]. *)
Definition after (repair : path -> text -> text) (d : disk) (p : path)
  : disk :=
  match file_at d p with
  | Some (File (Some c) Writable) =>
      if text_ne (repair p c) c
      then store d p (File (Some (repair p c)) Writable)
      else d
  | Some (File (Some c) (Failing kept)) =>
      if text_ne (repair p c) c
      then store d p (File (kept (repair p c)) (Failing kept))
      else d
  | _ => d
  end.

(** The events of [fix_file] on [p]. *)
Definition report (repair : path -> text -> text) (say_unchanged : bool)
    (d : disk) (p : path) : list event :=
  match file_at d p with
  | Some (File (Some c) acc) =>
      if text_ne (repair p c) c then
        match acc with
        | Writable => [Written p (repair p c); Printed (MFixed p)]
        | _ => [Printed (MFailed p (WriteError p))]
        end
      else if say_unchanged then [Printed (MUnchanged p)] else []
  | _ => [Printed (MFailed p (ReadError p))]
  end.

Definition is_write (e : event) : bool :=
  match e with
  | Written _ _ => true
  | _ => false
  end.

(** The paths of [l] name pairwise different files. *)
Definition distinct_files (d : disk) (l : list path) : Prop :=
  NoDup (target d <$> l).

(** A disk without links, given by its files. *)
Definition plain (fs : gmap path file) : disk := Disk ∅ fs.

(** A directory tree on which two patterns of simple_fix.py overlap: both
    produce [src/a.d.ts]. *)
Definition overlapping_glob (pattern : string) : list path :=
  if String.eqb pattern "src/**/*.ts"
  then [txt "src/a.ts"; txt "src/a.d.ts"]
  else if String.eqb pattern "src/**/*.d.ts" then [txt "src/a.d.ts"]
  else [].

(** The events of the loop of a [main] over the paths [l], file by file,
    each file on the disk the files before it have left, and the disk
    after the loop. *)
Fixpoint loop_events (repair : path -> text -> text) (say_unchanged : bool)
    (d : disk) (l : list path) : list event :=
  match l with
  | [] => []
  | p :: l' =>
      report repair say_unchanged d p
      ++ loop_events repair say_unchanged (after repair d p) l'
  end.

(** The events of the loop of final_precise_fix.py at one path. *)
Definition precise_report (alnum_hi : char -> bool) (d : disk) (p : path)
  : list event :=
  match file_at d p with
  | None => [Printed (MMissing p)]
  | Some _ =>
      report (fun _ => fix_specific_typescript_errors alnum_hi) false d p
  end.

Fixpoint precise_events (alnum_hi : char -> bool) (d : disk)
    (l : list path) : list event :=
  match l with
  | [] => []
  | p :: l' =>
      precise_report alnum_hi d p
      ++ precise_events alnum_hi
           (after (fun _ => fix_specific_typescript_errors alnum_hi) d p) l'
  end.

(** The blocks of [fix_specific_errors], in order: target and rules. *)
Definition final_fix_blocks : list (path * list rule) :=
  [ (final_fix.cache_file, cache_rules);
    (final_fix.filemanager_file, filemanager_rules);
    (final_fix.tray_file, tray_rules);
    (final_fix.windowsize_file, windowsize_rules);
    (final_fix.unblock_file, unblock_rules);
    (final_fix.preload_file, preload_rules);
    (final_fix.apiresponses_file, apiresponses_rules) ].

(** Blocks run one after the other. *)
Fixpoint run_blocks (bs : list (path * list rule)) : io unit :=
  match bs with
  | [] => ret tt
  | (target, rules) :: rest =>
      match rest with
      | [] => final_fix.fix_block target rules
      | _ => final_fix.fix_block target rules;; run_blocks rest
      end
  end.

(** The error a block of final_fix.py runs into, if any. *)
Definition block_error (d : disk) (p : path) : option exn :=
  match file_at d p with
  | Some (File None _) => Some (ReadError p)
  | Some (File (Some _) Writable) => None
  | Some (File (Some _) _) => Some (WriteError p)
  | None => None
  end.

(** The file a block of final_fix.py leaves at its target. *)
Definition rewritten (rules : list rule) (f : option file) : option file :=
  match f with
  | Some (File (Some c) Writable) =>
      Some (File (Some (apply_rules rules c)) Writable)
  | Some (File (Some c) (Failing kept)) =>
      Some (File (kept (apply_rules rules c)) (Failing kept))
  | _ => f
  end.

(** Disk and events of one block. *)
Definition block_after (d : disk) (b : path * list rule) : disk :=
  match file_at d b.1 with
  | Some (File (Some c) Writable) =>
      store d b.1 (File (Some (apply_rules b.2 c)) Writable)
  | Some (File (Some c) (Failing kept)) =>
      store d b.1 (File (kept (apply_rules b.2 c)) (Failing kept))
  | _ => d
  end.

Definition block_report (d : disk) (b : path * list rule) : list event :=
  match file_at d b.1 with
  | Some (File (Some c) Writable) =>
      [Written b.1 (apply_rules b.2 c); Printed (MFixed b.1)]
  | _ => []
  end.


(** What every [main] with a summary does after its loop. *)
Definition closing (k : nat) : list event :=
  [ Printed (MSummary k); Printed MTypecheck; System "npm run typecheck" ].

(** Some path of [l] names the file that [p] names. *)
Definition reaches (d : disk) (l : list path) (p : path) : Prop :=
  target d p ∈ target d <$> l.

(** The path an event is about, if it is about one. *)
Definition names (e : event) : option path :=
  match e with
  | Written p _ => Some p
  | Printed (MFixed p) => Some p
  | Printed (MUnchanged p) => Some p
  | Printed (MFailed p _) => Some p
  | Printed (MMissing p) => Some p
  | _ => None
  end.

(** ** Facts about the matcher and [re.sub] *)

Lemma backoff_some {A} (k : text -> option A) s min n r :
  backoff k s min n = Some r -> exists i, k (drop i s) = Some r.
Proof.
  induction n as [|n IH]; simpl.
  - destruct (0 <? min); [discriminate|].
    destruct (k (drop 0 s)) eqn:E; [|discriminate].
    intros [= <-]. by exists 0.
  - destruct (S n <? min); [discriminate|].
    destruct (k (drop (S n) s)) eqn:E.
    + intros [= <-]. by exists (S n).
    + apply IH.
Qed.

Lemma elem_of_drop_inv (c : char) i (s : text) : c ∈ drop i s -> c ∈ s.
Proof.
  intros H. rewrite <- (take_drop i s). apply elem_of_app. by right.
Qed.

Lemma run_has_lit c p : forall s m ok r,
  run p s m ok = Some r -> has_lit c p = true -> c ∈ s.
Proof.
  induction p as [|o k IH]; intros s m ok r Hrun Hlit; [discriminate|].
  destruct o as [x|f|min f|i]; simpl in *.
  - destruct s as [|y s']; [discriminate|].
    destruct (N.eqb_spec y x) as [->|]; [|discriminate].
    apply orb_true_iff in Hlit as [Hx|Hk].
    + apply N.eqb_eq in Hx as ->. apply elem_of_cons. by left.
    + apply elem_of_cons. right. eauto.
  - destruct s as [|y s']; [discriminate|].
    destruct (f y); [|discriminate].
    apply elem_of_cons. right. eauto.
  - apply backoff_some in Hrun as [j Hj].
    eapply elem_of_drop_inv. eauto.
  - eauto.
Qed.

Lemma search_has_lit c p s :
  search p s = true -> has_lit c p = true -> c ∈ s.
Proof.
  induction s as [|y s IH]; simpl; intros Hs Hlit.
  - unfold exec in Hs. destruct (run p [] [] _) eqn:E; [|discriminate].
    eapply run_has_lit; eauto.
  - unfold exec in Hs. destruct (run p (y :: s) [] _) eqn:E.
    + eapply run_has_lit; eauto.
    + apply elem_of_cons. right. auto.
Qed.

Lemma sub_from_no_match p t s : search p s = false -> sub_from p t s 0 = s.
Proof.
  induction s as [|y s IH]; simpl; unfold at_pos.
  - destruct (exec p [] false); [discriminate|done].
  - destruct (exec p (y :: s) false); [discriminate|].
    intros H. simpl. by rewrite IH.
Qed.

Lemma apply_rules_untouched rs s :
  untouched rs s = true -> apply_rules rs s = s.
Proof.
  unfold apply_rules, untouched. induction rs as [|r rs IH]; simpl; [done|].
  intros [Hr Hrs]%andb_true_iff.
  unfold apply_rule at 2, re_sub.
  rewrite sub_from_no_match; [auto|].
  by destruct (search _ s).
Qed.

Lemma untouched_without_triggers cs rs s :
  forallb (triggered_by cs) rs = true ->
  free_of cs s = true ->
  untouched rs s = true.
Proof.
  unfold untouched, free_of. intros Hall Hfree.
  apply forallb_forall. intros r Hr.
  rewrite forallb_forall in Hall. specialize (Hall r Hr).
  unfold triggered_by in Hall. apply existsb_exists in Hall as (c & Hc & Hlit).
  rewrite forallb_forall in Hfree. specialize (Hfree c Hc).
  destruct (search (rule_pattern r) s) eqn:E; [|done].
  exfalso. apply negb_true_iff in Hfree.
  assert (Hin : c ∈ s) by (eapply search_has_lit; eauto).
  apply list_elem_of_In in Hin.
  assert (existsb (N.eqb c) s = true); [|congruence].
  apply existsb_exists. exists c. split; [done|apply N.eqb_refl].
Qed.

Lemma unchanged_without_triggers rs s :
  forallb (triggered_by triggers) rs = true ->
  free_of triggers s = true ->
  apply_rules rs s = s.
Proof.
  intros Hrs Hs. apply apply_rules_untouched.
  by apply (untouched_without_triggers triggers).
Qed.

Lemma backoff_range {A} (k : text -> option A) s min n r :
  backoff k s min n = Some r ->
  exists i, min <= i /\ i <= n /\ k (drop i s) = Some r.
Proof.
  induction n as [|n IH]; simpl.
  - destruct (0 <? min) eqn:E; [discriminate|].
    apply Nat.ltb_ge in E.
    destruct (k (drop 0 s)) eqn:Ek; [|discriminate].
    intros [= <-]. exists 0. auto.
  - destruct (S n <? min) eqn:E; [discriminate|].
    apply Nat.ltb_ge in E.
    destruct (k (drop (S n) s)) eqn:Ek.
    + intros [= <-]. exists (S n). auto.
    + intros H. destruct (IH H) as (i & ? & ? & ?). exists i. auto.
Qed.

Lemma count_le f (s : text) : count f s <= length s.
Proof. induction s as [|c s IH]; simpl; [lia|]. destruct (f c); simpl; lia. Qed.

(** What a match leaves over is a suffix of the text. *)
Lemma run_suffix p : forall s m ok m' rest,
  run p s m ok = Some (m', rest) -> exists k, s = k ++ rest.
Proof.
  induction p as [|o p IH]; intros s m ok m' rest H; simpl in H.
  - destruct (ok s); [|discriminate]. injection H as <- <-. by exists [].
  - destruct o as [x|f|min f|i].
    + destruct s as [|y s]; [discriminate|].
      destruct (N.eqb y x); [|discriminate].
      destruct (IH _ _ _ _ _ H) as [k ->]. by exists (y :: k).
    + destruct s as [|y s]; [discriminate|].
      destruct (f y); [|discriminate].
      destruct (IH _ _ _ _ _ H) as [k ->]. by exists (y :: k).
    + apply backoff_some in H as [j Hj].
      destruct (IH _ _ _ _ _ Hj) as [k Hk].
      exists (take j s ++ k). by rewrite <- app_assoc, <- Hk, take_drop.
    + eauto.
Qed.

(** A match of a pattern that is not [nullable] consumes text. *)
Lemma run_consumes p : forall s m ok m' rest,
  nullable p = false ->
  run p s m ok = Some (m', rest) -> length rest < length s.
Proof.
  induction p as [|o p IH]; intros s m ok m' rest Hn H; simpl in *.
  - discriminate.
  - destruct o as [x|f|min f|i]; simpl in Hn.
    + destruct s as [|y s]; [discriminate|].
      destruct (N.eqb y x); [|discriminate].
      apply run_suffix in H as [k ->]. rewrite length_cons, length_app. lia.
    + destruct s as [|y s]; [discriminate|].
      destruct (f y); [|discriminate].
      apply run_suffix in H as [k ->]. rewrite length_cons, length_app. lia.
    + apply backoff_range in H as (j & Hmin & Hj & H).
      pose proof (count_le f s).
      destruct min as [|min]; simpl in Hn.
      * apply IH in H; [|done]. rewrite length_drop in H. lia.
      * apply run_suffix in H as [k Hk].
        apply (f_equal length) in Hk.
        rewrite length_drop, length_app in Hk. lia.
    + eauto.
Qed.

Lemma sub_from_skip p t : forall s k,
  k <= length s -> sub_from p t s k = sub_from p t (drop k s) 0.
Proof.
  induction s as [|y s IH]; intros [|k] Hk; simpl in *; try done; try lia.
  apply IH. lia.
Qed.

Lemma exec_rest p s adv m rest :
  exec p s adv = Some (m, rest) ->
  length rest <= length s /\ drop (length s - length rest) s = rest.
Proof.
  unfold exec. intros [k ->]%run_suffix.
  rewrite length_app. split; [lia|].
  replace (length k + length rest - length rest) with (length k) by lia.
  by rewrite drop_app_length.
Qed.

Lemma re_sub_nil p t : re_sub p t [] = (at_pos p t []).1.
Proof.
  unfold re_sub. simpl. destruct (at_pos p t []). simpl. by rewrite app_nil_r.
Qed.

Lemma re_sub_copy p t c s :
  exec p (c :: s) false = None -> re_sub p t (c :: s) = c :: re_sub p t s.
Proof. intros H. unfold re_sub. simpl. unfold at_pos. by rewrite H. Qed.

Lemma re_sub_match p t s m rest :
  nullable p = false ->
  exec p s false = Some (m, rest) ->
  length rest < length s /\ re_sub p t s = expand t m ++ re_sub p t rest.
Proof.
  intros H H0.
  assert (Hlt : length rest < length s).
  { unfold exec in H0. by apply run_consumes in H0. }
  split; [done|].
  destruct (exec_rest _ _ _ _ _ H0) as [Hle Hdrop].
  unfold re_sub. destruct s as [|c s]; [simpl in Hlt; lia|].
  simpl. unfold at_pos. rewrite H0.
  replace (length rest =? length (c :: s)) with false
    by (symmetry; apply Nat.eqb_neq; lia).
  destruct (length (c :: s) - length rest) as [|k] eqn:E;
    [simpl in *; lia|].
  f_equal. rewrite sub_from_skip by (simpl in *; lia). f_equal.
  by rewrite <- Hdrop.
Qed.

Lemma run_lits (P : text) : forall s m ok m' rest,
  run (Lit <$> P) s m ok = Some (m', rest) -> s = P ++ rest /\ m' = m.
Proof.
  induction P as [|x P IH]; intros s m ok m' rest H; simpl in H.
  - destruct (ok s); [|discriminate]. by injection H as <- <-.
  - destruct s as [|y s]; [discriminate|].
    destruct (N.eqb_spec y x) as [->|]; [|discriminate].
    destruct (IH _ _ _ _ _ H) as [-> ->]. done.
Qed.

Lemma expand_chars_only (P : text) m : expand (PChar <$> P) m = P.
Proof. induction P as [|x P IH]; simpl; [done|]. f_equal. exact IH. Qed.

Lemma re_sub_same_literal (P : text) :
  P <> [] -> forall s, re_sub (Lit <$> P) (PChar <$> P) s = s.
Proof.
  intros HP.
  assert (Hn : nullable (Lit <$> P) = false) by (by destruct P).
  intros s. remember (length s) as n eqn:Hlen.
  revert s Hlen. induction n as [n IH] using lt_wf_ind. intros s ->.
  pose proof (re_sub_nil (Lit <$> P) (PChar <$> P)) as H0.
  pose proof (re_sub_copy (Lit <$> P) (PChar <$> P)) as H1.
  destruct (exec (Lit <$> P) s false) as [[m rest]|] eqn:E.
  - destruct (re_sub_match _ (PChar <$> P) _ _ _ Hn E) as [Hlt ->].
    unfold exec in E. apply run_lits in E as [-> ->].
    rewrite expand_chars_only. f_equal. by apply (IH (length rest)).
  - destruct s as [|c s].
    + rewrite H0. unfold at_pos. by rewrite E.
    + rewrite H1 by done. f_equal. apply (IH (length s)); simpl; auto.
Qed.

Lemma apply_rules_app rs1 rs2 s :
  apply_rules (rs1 ++ rs2) s = apply_rules rs2 (apply_rules rs1 s).
Proof. unfold apply_rules. apply foldl_app. Qed.

Lemma elem_of_suffix (c : char) (k a : text) : c ∈ a -> c ∈ k ++ a.
Proof. intros. apply elem_of_app. by right. Qed.

(** Every mark a match sets holds a suffix of the text. *)
Lemma run_marks p : forall s m ok m' rest i a,
  run p s m ok = Some (m', rest) ->
  mark_at i m' = Some a ->
  mark_at i m = Some a \/ exists k, s = k ++ a.
Proof.
  induction p as [|o p IH]; intros s m ok m' rest i a H Hm; simpl in H.
  - destruct (ok s); [|discriminate]. injection H as <- <-. by left.
  - destruct o as [x|f|min f|j].
    + destruct s as [|y s]; [discriminate|].
      destruct (N.eqb y x); [|discriminate].
      destruct (IH _ _ _ _ _ _ _ H Hm) as [|[k ->]]; [by left|right].
      by exists (y :: k).
    + destruct s as [|y s]; [discriminate|].
      destruct (f y); [|discriminate].
      destruct (IH _ _ _ _ _ _ _ H Hm) as [|[k ->]]; [by left|right].
      by exists (y :: k).
    + apply backoff_some in H as [n Hn].
      destruct (IH _ _ _ _ _ _ _ Hn Hm) as [|[k Hk]]; [by left|right].
      exists (take n s ++ k). by rewrite <- app_assoc, <- Hk, take_drop.
    + destruct (IH _ _ _ _ _ _ _ H Hm) as [H'|]; [|by right].
      simpl in H'. destruct (i =? j); [|by left].
      injection H' as <-. right. by exists [].
Qed.

Lemma group_chars p s adv m rest g (c : char) :
  exec p s adv = Some (m, rest) -> c ∈ group m g -> c ∈ s.
Proof.
  unfold exec, group. intros H Hc.
  destruct (mark_at (2 * g - 2) m) as [a|] eqn:Ea;
    [|by apply elem_of_nil in Hc].
  destruct (mark_at (2 * g - 1) m) as [b|]; [|by apply elem_of_nil in Hc].
  destruct (run_marks _ _ _ _ _ _ _ _ H Ea) as [|[k ->]]; [discriminate|].
  apply elem_of_suffix.
  rewrite <- (take_drop (length a - length b) a). apply elem_of_app. by left.
Qed.

Lemma expand_chars p s adv m rest t (c : char) :
  exec p s adv = Some (m, rest) ->
  c ∈ expand t m -> c ∈ template_chars t \/ c ∈ s.
Proof.
  intros H. induction t as [|[x|g] t IH]; simpl; intros Hc.
  - by apply elem_of_nil in Hc.
  - apply elem_of_cons in Hc as [->|Hc].
    + left. apply elem_of_cons. by left.
    + destruct (IH Hc); [left|by right]. apply elem_of_cons. by right.
  - apply elem_of_app in Hc as [Hc|Hc]; [|auto].
    right. eapply group_chars; eauto.
Qed.

Lemma at_pos_chars p t s (c : char) :
  c ∈ (at_pos p t s).1 -> c ∈ template_chars t \/ c ∈ s.
Proof.
  unfold at_pos.
  destruct (exec p s false) as [[m rest]|] eqn:E; simpl;
    [|by intros ?%elem_of_nil].
  pose proof (expand_chars _ _ _ _ _ t c E) as Hm.
  destruct (length rest =? length s); [|done].
  destruct (exec p s true) as [[m' rest']|] eqn:E'; simpl; [|done].
  pose proof (expand_chars _ _ _ _ _ t c E') as Hm'.
  rewrite elem_of_app. intros [|]; auto.
Qed.

Lemma sub_from_chars p t (c : char) : forall s skip,
  c ∈ sub_from p t s skip -> c ∈ template_chars t \/ c ∈ s.
Proof.
  induction s as [|y s IH]; intros skip Hc.
  - destruct skip; simpl in Hc; [|by apply elem_of_nil in Hc].
    apply (at_pos_chars p t []).
    destruct (at_pos p t []) as [out n]. simpl.
    by rewrite app_nil_r in Hc.
  - assert (Hs : forall k, c ∈ sub_from p t s k ->
                   c ∈ template_chars t \/ c ∈ y :: s).
    { intros k H. destruct (IH _ H); [by left|right].
      apply elem_of_cons. by right. }
    destruct skip as [|k]; simpl in Hc; [|eauto].
    pose proof (at_pos_chars p t (y :: s) c) as Hout.
    destruct (at_pos p t (y :: s)) as [out n]. simpl in Hout.
    apply elem_of_app in Hc as [Hc|Hc]; [auto|].
    destruct n as [|k]; [|eauto].
    apply elem_of_cons in Hc as [->|Hc]; [|eauto].
    right. apply elem_of_cons. by left.
Qed.

Lemma apply_rules_chars (c : char) : forall rs s,
  c ∈ apply_rules rs s ->
  c ∈ s \/ exists r, r ∈ rs /\ c ∈ template_chars (rule_template r).
Proof.
  unfold apply_rules.
  induction rs as [|r rs IH]; intros s Hc; simpl in Hc; [by left|].
  destruct (IH _ Hc) as [H|(r' & Hr' & H)].
  - apply sub_from_chars in H as [H|H]; [right|by left].
    exists r. split; [apply elem_of_cons; by left|done].
  - right. exists r'. split; [apply elem_of_cons; by right|done].
Qed.


(** Literal patterns: where they match, and what [re.sub] does around a
    piece of text they cannot run into. *)

Lemma agree_common (a b r1 r2 : text) : a ++ r1 = b ++ r2 -> agree a b = true.
Proof.
  revert b. induction a as [|x a IH]; intros [|y b] H; simpl; try done.
  simpl in H. injection H as -> H. rewrite N.eqb_refl. simpl. eauto.
Qed.

Lemma run_lits_app (P : text) rest m ok :
  run (Lit <$> P) (P ++ rest) m ok = if ok rest then Some (m, rest) else None.
Proof.
  induction P as [|x P IH]; simpl; [done|]. by rewrite N.eqb_refl.
Qed.

Lemma exec_lits_app (P rest : text) :
  exec (Lit <$> P) (P ++ rest) false = Some ([], rest).
Proof. unfold exec. by rewrite run_lits_app. Qed.

Lemma exec_lits_some (P s : text) m rest :
  exec (Lit <$> P) s false = Some (m, rest) -> s = P ++ rest /\ m = [].
Proof. unfold exec. apply run_lits. Qed.

Lemma exec_lits_none (P s post : text) :
  agree P s = false -> exec (Lit <$> P) (s ++ post) false = None.
Proof.
  intros H. destruct (exec (Lit <$> P) (s ++ post) false) as [[m rest]|] eqn:E;
    [|done].
  apply exec_lits_some in E as [E _]. symmetry in E.
  apply agree_common in E. congruence.
Qed.

Lemma nullable_lits (P : text) : P <> [] -> nullable (Lit <$> P) = false.
Proof. by destruct P. Qed.

Lemma re_sub_lits_nil (P : text) t : P <> [] -> re_sub (Lit <$> P) t [] = [].
Proof.
  intros HP. rewrite re_sub_nil. unfold at_pos.
  destruct (exec (Lit <$> P) [] false) as [[m rest]|] eqn:E; [|done].
  apply exec_lits_some in E as [E _]. destruct P; [done|discriminate].
Qed.

Lemma re_sub_through (P : text) t : forall M post,
  no_start P M = true ->
  re_sub (Lit <$> P) t (M ++ post) = M ++ re_sub (Lit <$> P) t post.
Proof.
  induction M as [|c M IH]; intros post H; [done|].
  simpl in H. apply andb_true_iff in H as [H0 H].
  apply negb_true_iff in H0.
  change ((c :: M) ++ post) with (c :: (M ++ post)).
  rewrite re_sub_copy by (apply (exec_lits_none P (c :: M) post H0)).
  simpl. f_equal. by apply IH.
Qed.

Lemma tails_clash_spec (v M : text) :
  tails_clash v M = true ->
  forall u v', v = u ++ v' -> v' <> [] -> agree v' M = false.
Proof.
  induction v as [|x v IH]; intros H u v' Heq Hne.
  - destruct u, v'; done.
  - simpl in H. apply andb_true_iff in H as [H1 H2].
    destruct u as [|y u]; simpl in Heq.
    + subst v'. by apply negb_true_iff.
    + injection Heq as -> Heq. eauto.
Qed.

Lemma app_split (c : text) : forall a b d,
  a ++ b = c ++ d -> length c <= length a ->
  exists r, a = c ++ r /\ d = r ++ b.
Proof.
  induction c as [|x c IH]; intros a b d H Hlen; simpl in *.
  - exists a. by rewrite H.
  - destruct a as [|y a]; simpl in *; [lia|].
    injection H as -> H. destruct (IH a b d H) as (r & -> & ->); [lia|].
    by exists r.
Qed.

Lemma re_sub_split (P : text) t (M : text) :
  no_left_overlap P M = true ->
  forall pre post,
    re_sub (Lit <$> P) t (pre ++ M ++ post)
    = re_sub (Lit <$> P) t pre ++ re_sub (Lit <$> P) t (M ++ post).
Proof.
  intros Hov.
  assert (HP : P <> []) by (by destruct P).
  pose proof (nullable_lits P HP) as Hn.
  intros pre. remember (length pre) as n eqn:Hlen.
  revert pre Hlen. induction n as [n IH] using lt_wf_ind. intros pre -> post.
  destruct pre as [|c pre]; [by rewrite re_sub_lits_nil|].
  destruct (exec (Lit <$> P) ((c :: pre) ++ M ++ post) false)
    as [[m rest]|] eqn:E.
  - destruct (re_sub_match _ t _ _ _ Hn E) as [_ ->].
    apply exec_lits_some in E as [E ->].
    destruct (le_lt_dec (length P) (length (c :: pre))) as [Hle|Hlt].
    + destruct (app_split P (c :: pre) (M ++ post) rest E Hle)
        as (r & Hpre & ->).
      rewrite Hpre.
      destruct (re_sub_match _ t _ _ _ Hn (exec_lits_app P r)) as [_ ->].
      rewrite <- app_assoc. f_equal.
      apply (IH (length r)); [|done].
      rewrite Hpre, length_app. destruct P; [done|simpl; lia].
    + exfalso. symmetry in E.
      destruct (app_split (c :: pre) P rest (M ++ post) E) as (v & HPv & Hv);
        [lia|].
      assert (Hne : v <> []).
      { intros ->. rewrite app_nil_r in HPv. rewrite HPv in Hlt. lia. }
      destruct P as [|x P']; [done|]. simpl in Hov, HPv.
      injection HPv as -> HPv.
      pose proof (tails_clash_spec _ _ Hov pre v HPv Hne) as Hcl.
      symmetry in Hv. apply agree_common in Hv. congruence.
  - assert (E' : exec (Lit <$> P) (c :: pre) false = None).
    { destruct (exec (Lit <$> P) (c :: pre) false) as [[m r]|] eqn:E';
        [|done].
      apply exec_lits_some in E' as [E' _].
      rewrite E', <- app_assoc, exec_lits_app in E. discriminate. }
    change ((c :: pre) ++ M ++ post) with (c :: (pre ++ M ++ post)) in *.
    rewrite !re_sub_copy by done. simpl. f_equal.
    apply (IH (length pre)); simpl; auto.
Qed.

(** A literal rule next to a text [M] it cannot match in or run into: the
    rule works in front of [M] and behind it as if [M] were not there. *)
Lemma apply_rule_passes r (P M : text) :
  rule_pattern r = Lit <$> P ->
  no_left_overlap P M = true -> no_start P M = true ->
  forall pre post,
    apply_rule r (pre ++ M ++ post) = apply_rule r pre ++ M ++ apply_rule r post.
Proof.
  intros Hr Hov Hns pre post. unfold apply_rule. rewrite Hr.
  rewrite re_sub_split by done. by rewrite re_sub_through.
Qed.

(** A literal rule at an occurrence of its pattern, followed by a text it
    cannot match in. *)
Lemma apply_rule_hits r (P M : text) :
  rule_pattern r = Lit <$> P ->
  no_left_overlap P (P ++ M) = true -> no_start P M = true ->
  forall pre post,
    apply_rule r (pre ++ (P ++ M) ++ post)
    = apply_rule r pre ++ (expand (rule_template r) [] ++ M)
        ++ apply_rule r post.
Proof.
  intros Hr Hov Hns pre post. unfold apply_rule. rewrite Hr.
  rewrite re_sub_split by done.
  assert (HP : P <> []) by (by destruct P).
  rewrite <- app_assoc.
  destruct (re_sub_match _ (rule_template r) _ _ _ (nullable_lits P HP)
              (exec_lits_app P (M ++ post))) as [_ ->].
  rewrite re_sub_through by done. by rewrite <- app_assoc.
Qed.

(** ** Facts about the disk, [fix_file] and the loops *)

Lemma target_store d p f q : target (store d p f) q = target d q.
Proof. reflexivity. Qed.

Lemma file_at_store d p f q :
  file_at (store d p f) q =
    if decide (target d q = target d p) then Some f else file_at d q.
Proof.
  unfold file_at, store. simpl. change (target _ q) with (target d q).
  destruct (decide (target d q = target d p)) as [->|Hne].
  - by rewrite lookup_insert_eq.
  - by rewrite lookup_insert_ne.
Qed.

Lemma variants_shape U repair fixf :
  (repair, fixf) ∈ variants U ->
  exists say_unchanged, fixf = fix_file_with repair say_unchanged.
Proof.
  unfold variants. rewrite !elem_of_cons, elem_of_nil.
  intros [[= -> ->]|[[= -> ->]|[[= -> ->]|[]]]].
  - by exists true.
  - by exists false.
  - by exists false.
Qed.

Lemma text_ne_same c : text_ne c c = false.
Proof. unfold text_ne. by rewrite bool_decide_eq_true_2. Qed.

Lemma text_ne_true a b : text_ne a b = true <-> a <> b.
Proof.
  unfold text_ne. rewrite negb_true_iff.
  split; [by intros H%bool_decide_eq_false|by apply bool_decide_eq_false_2].
Qed.

Lemma fix_file_with_run repair su p w :
  fix_file_with repair su p w =
    (Value (fixable repair (on_disk w) p),
     World (after repair (on_disk w) p)
           (trace w ++ report repair su (on_disk w) p)).
Proof.
  destruct w as [d tr].
  unfold fix_file_with, try_except, bind, read_text, write_text, print, emit,
    ret, fixable, after, report; simpl.
  destruct (file_at d p) as [[[c|] acc]|] eqn:E; simpl; try done.
  destruct (text_ne (repair p c) c) eqn:T; simpl.
  - rewrite E. destruct acc; simpl; try done.
    by rewrite <- app_assoc.
  - destruct su; simpl; destruct acc; try done; by rewrite app_nil_r.
Qed.

Lemma links_after repair d p : links (after repair d p) = links d.
Proof.
  unfold after.
  destruct (file_at d p) as [[[c|] [| |kept]]|]; try done;
    by destruct (text_ne (repair p c) c).
Qed.

Lemma target_after repair d p q : target (after repair d p) q = target d q.
Proof. unfold target. by rewrite links_after. Qed.

Lemma file_at_after repair d p q :
  file_at (after repair d p) q =
    if decide (target d q = target d p) then repaired repair p (file_at d p)
    else file_at d q.
Proof.
  assert (Hsame : target d q = target d p -> file_at d q = file_at d p).
  { unfold file_at. by intros ->. }
  unfold after, repaired.
  destruct (file_at d p) as [[[c|] [| |kept]]|];
    try (destruct (decide (target d q = target d p)) as [H|H];
         [by rewrite (Hsame H)|done]).
  - destruct (text_ne (repair p c) c) eqn:T.
    + by rewrite file_at_store.
    + destruct (decide (target d q = target d p)) as [H|H]; [|done].
      rewrite (Hsame H). unfold text_ne in T. apply negb_false_iff in T.
      apply bool_decide_eq_true in T. by rewrite T.
  - destruct (text_ne (repair p c) c) eqn:T.
    + by rewrite file_at_store.
    + destruct (decide (target d q = target d p)) as [H|H]; [|done].
      by rewrite (Hsame H).
Qed.

Lemma file_at_after_ne repair d p q :
  target d q <> target d p -> file_at (after repair d p) q = file_at d q.
Proof.
  intros H. rewrite file_at_after. by destruct (decide (target d q = target d p)).
Qed.

(** [fix_file] creates no file and removes none. *)
Lemma after_missing repair d p q :
  file_at (after repair d p) q = None <-> file_at d q = None.
Proof.
  rewrite file_at_after.
  destruct (decide (target d q = target d p)) as [H|H]; [|done].
  assert (Hq : file_at d q = file_at d p) by (unfold file_at; by rewrite H).
  rewrite Hq. unfold repaired.
  destruct (file_at d p) as [[[c|] [| |kept]]|]; try done.
  destruct (text_ne (repair p c) c); done.
Qed.

Lemma fixable_after repair d p q :
  target d q <> target d p ->
  fixable repair (after repair d p) q = fixable repair d q.
Proof. intros H. unfold fixable. by rewrite file_at_after_ne. Qed.

Lemma failure_after repair d p q :
  target d q <> target d p ->
  failure repair (after repair d p) q = failure repair d q.
Proof. intros H. unfold failure. by rewrite file_at_after_ne. Qed.

Lemma report_after repair su d p q :
  target d q <> target d p ->
  report repair su (after repair d p) q = report repair su d q.
Proof. intros H. unfold report. by rewrite file_at_after_ne. Qed.

Lemma flat_map_ext_elem {A B} (f g : A -> list B) l :
  (forall a, a ∈ l -> f a = g a) -> flat_map f l = flat_map g l.
Proof.
  induction l as [|a l IH]; simpl; intros H; [done|].
  rewrite H, IH; [done| |]; intros; try apply H; apply elem_of_cons; auto.
Qed.

Lemma filter_ext_elem {A} (f g : A -> bool) l :
  (forall a, a ∈ l -> f a = g a) -> List.filter f l = List.filter g l.
Proof.
  intros H. apply List.filter_ext_in. intros a Ha. apply H.
  by apply list_elem_of_In.
Qed.

Lemma elem_of_flat_map {A B} (f : A -> list B) l b :
  b ∈ flat_map f l <-> exists a, a ∈ l /\ b ∈ f a.
Proof.
  rewrite list_elem_of_In, in_flat_map. split.
  - intros (a & Ha & Hb). exists a. by rewrite !list_elem_of_In.
  - intros (a & Ha & Hb). exists a. by rewrite <- !list_elem_of_In.
Qed.

Lemma report_writes repair su d p :
  length (List.filter is_write (report repair su d p))
  = if fixable repair d p then 1 else 0.
Proof.
  unfold report, fixable.
  destruct (file_at d p) as [[[c|] [| |kept]]|]; simpl; try done;
    destruct (text_ne (repair p c) c); simpl; try done; by destruct su.
Qed.

(** The loop, whatever the paths name: it ends normally, and the count
    goes up by the number of writes that went through. *)
Lemma count_fixed_run repair su : forall l n w,
  count_fixed (fix_file_with repair su) l n w =
    (Value (n + length (List.filter is_write
                          (loop_events repair su (on_disk w) l))),
     World (foldl (after repair) (on_disk w) l)
           (trace w ++ loop_events repair su (on_disk w) l)).
Proof.
  induction l as [|p l IH]; intros n w; simpl.
  - unfold ret. destruct w. simpl. by rewrite Nat.add_0_r, app_nil_r.
  - unfold bind at 1. rewrite fix_file_with_run, IH. simpl.
    rewrite List.filter_app, length_app, report_writes, <- app_assoc.
    destruct (fixable repair (on_disk w) p); simpl; f_equal; f_equal; lia.
Qed.

Lemma distinct_files_cons d p l :
  distinct_files d (p :: l) ->
  (forall q, q ∈ l -> target d q <> target d p) /\ distinct_files d l.
Proof.
  unfold distinct_files. rewrite fmap_cons. intros [Hp Hl]%NoDup_cons.
  split; [|done]. intros q Hq Heq. apply Hp. rewrite <- Heq.
  by apply list_elem_of_fmap_2.
Qed.

Lemma distinct_files_after repair d p l :
  distinct_files (after repair d p) l <-> distinct_files d l.
Proof.
  unfold distinct_files.
  replace (target (after repair d p) <$> l) with (target d <$> l); [done|].
  apply list_fmap_ext. intros i q _. by rewrite target_after.
Qed.

Lemma distinct_files_NoDup d l : distinct_files d l -> NoDup l.
Proof. apply NoDup_fmap_1. Qed.

(** Over paths that name pairwise different files each file is handled
    as on the disk the loop starts from. *)
Lemma loop_events_distinct repair su : forall l d,
  distinct_files d l ->
  loop_events repair su d l = flat_map (report repair su d) l.
Proof.
  induction l as [|p l IH]; intros d Hd; simpl; [done|].
  apply distinct_files_cons in Hd as [Hne Hd]. f_equal.
  rewrite IH by (by apply distinct_files_after).
  apply flat_map_ext_elem. intros q Hq. apply report_after. auto.
Qed.

Lemma links_foldl_after repair : forall l d,
  links (foldl (after repair) d l) = links d.
Proof.
  induction l as [|p l IH]; intros d; simpl; [done|].
  by rewrite IH, links_after.
Qed.

(** Files that none of the paths names stay as they are. *)
Lemma foldl_after_frame repair : forall l d q,
  target d q ∉ target d <$> l ->
  file_at (foldl (after repair) d l) q = file_at d q.
Proof.
  induction l as [|p l IH]; intros d q Hq; cbn [foldl]; [done|].
  rewrite fmap_cons in Hq. apply not_elem_of_cons in Hq as [Hq1 Hq2].
  assert (Hmap : target (after repair d p) <$> l = target d <$> l).
  { apply list_fmap_ext. intros i x _. by rewrite target_after. }
  rewrite IH by (by rewrite Hmap, target_after).
  by apply file_at_after_ne.
Qed.

(** Over paths that name pairwise different files, the file a candidate
    names ends as [fix_file] alone would leave it. *)
Lemma foldl_after_lookup repair : forall l d p q,
  distinct_files d l -> p ∈ l -> target d q = target d p ->
  file_at (foldl (after repair) d l) q = repaired repair p (file_at d q).
Proof.
  induction l as [|a l IH]; intros d p q Hd Hp Hq; cbn [foldl].
  - by apply elem_of_nil in Hp.
  - apply distinct_files_cons in Hd as [Hne Hd].
    assert (Hmap : target (after repair d a) <$> l = target d <$> l).
    { apply list_fmap_ext. intros i x _. by rewrite target_after. }
    apply elem_of_cons in Hp as [->|Hp].
    + rewrite foldl_after_frame.
      * rewrite file_at_after.
        destruct (decide (target d q = target d a)); [|done].
        unfold file_at. by rewrite Hq.
      * rewrite Hmap, target_after, Hq.
        intros (x & Hx & Hin)%list_elem_of_fmap. by apply (Hne x).
    + rewrite (IH (after repair d a) p q);
        [|by apply distinct_files_after|done|by rewrite !target_after].
      rewrite file_at_after_ne; [done|]. rewrite Hq. by apply Hne.
Qed.

Lemma foldl_after_missing repair : forall l d q,
  file_at (foldl (after repair) d l) q = None <-> file_at d q = None.
Proof.
  induction l as [|p l IH]; intros d q; simpl; [done|].
  by rewrite IH, after_missing.
Qed.

(** A failure message in the events of [fix_file] names the file and the
    error it ran into. *)
Lemma report_failed repair su d p q e :
  Printed (MFailed q e) ∈ report repair su d p <->
  q = p /\ failure repair d p = Some e.
Proof.
  unfold report, failure.
  destruct (file_at d p) as [[[c|] acc]|]; simpl;
    try destruct (text_ne (repair p c) c); try destruct acc; try destruct su;
    simpl; rewrite ?elem_of_cons, ?elem_of_nil;
    intuition (try discriminate; try congruence).
Qed.

(** The loop of final_precise_fix.py. *)
Lemma precise_report_writes U d p :
  length (List.filter is_write (precise_report U d p))
  = if fixable (fun _ => fix_specific_typescript_errors U) d p then 1 else 0.
Proof.
  unfold precise_report.
  destruct (file_at d p) eqn:E; [apply report_writes|].
  unfold fixable. by rewrite E.
Qed.

Lemma fix_existing_run U : forall l n w,
  final_precise_fix.fix_existing U l n w =
    (Value (n + length (List.filter is_write
                          (precise_events U (on_disk w) l))),
     World (foldl (after (fun _ => fix_specific_typescript_errors U))
                  (on_disk w) l)
           (trace w ++ precise_events U (on_disk w) l)).
Proof.
  set (repair := fun _ : path => fix_specific_typescript_errors U).
  assert (Hf : final_precise_fix.fix_file U = fix_file_with repair false)
    by reflexivity.
  induction l as [|p l IH]; intros n w.
  - simpl. unfold ret. destruct w. simpl. by rewrite Nat.add_0_r, app_nil_r.
  - cbn [final_precise_fix.fix_existing precise_events foldl].
    unfold bind at 1, os_path_exists.
    rewrite List.filter_app, length_app, precise_report_writes.
    fold repair. unfold precise_report.
    destruct (file_at (on_disk w) p) as [f|] eqn:E.
    + rewrite bool_decide_eq_true_2 by eauto.
      unfold bind at 1. rewrite Hf, fix_file_with_run, IH.
      cbn [on_disk trace]. rewrite <- app_assoc.
      destruct (fixable repair (on_disk w) p); simpl; f_equal; try done; f_equal; lia.
    + rewrite bool_decide_eq_false_2 by (intros [x Hx]; discriminate).
      unfold bind at 1, print, emit. rewrite IH.
      cbn [on_disk trace]. rewrite <- app_assoc.
      assert (Hfix : fixable repair (on_disk w) p = false)
        by (unfold fixable; by rewrite E).
      assert (Haft : after repair (on_disk w) p = on_disk w)
        by (unfold after; by rewrite E).
      rewrite Hfix, Haft. simpl. f_equal; try done; f_equal; lia.
Qed.

Lemma precise_events_distinct U : forall l d,
  distinct_files d l ->
  precise_events U d l = flat_map (precise_report U d) l.
Proof.
  induction l as [|p l IH]; intros d Hd; simpl; [done|].
  apply distinct_files_cons in Hd as [Hne Hd]. f_equal.
  rewrite IH by (by apply distinct_files_after).
  apply flat_map_ext_elem. intros q Hq. unfold precise_report.
  rewrite file_at_after_ne by auto.
  destruct (file_at d q); [|done]. apply report_after. auto.
Qed.

Lemma precise_events_missing U : forall l d p,
  p ∈ l -> file_at d p = None -> Printed (MMissing p) ∈ precise_events U d l.
Proof.
  induction l as [|a l IH]; intros d p Hp Hmiss; [by apply elem_of_nil in Hp|].
  simpl. apply elem_of_app. apply elem_of_cons in Hp as [->|Hp].
  - left. unfold precise_report. rewrite Hmiss. apply elem_of_cons. by left.
  - right. apply IH; [done|]. by apply after_missing.
Qed.

Lemma report_names repair su d p e :
  e ∈ report repair su d p -> names e = Some p.
Proof.
  unfold report.
  destruct (file_at d p) as [[[c|] acc]|]; simpl;
    try destruct (text_ne (repair p c) c); try destruct acc; try destruct su;
    rewrite ?elem_of_cons, ?elem_of_nil;
    intuition (subst; try done).
Qed.

(** All that the loop of final_precise_fix.py has to say about a missing
    path is that it is missing. *)
Lemma precise_events_of_missing U : forall l d p e,
  file_at d p = None -> e ∈ precise_events U d l -> names e = Some p ->
  e = Printed (MMissing p).
Proof.
  induction l as [|a l IH]; intros d p e Hmiss He Hn.
  - by apply elem_of_nil in He.
  - simpl in He. apply elem_of_app in He as [He|He].
    + unfold precise_report in He.
      destruct (file_at d a) as [f|] eqn:E.
      * apply report_names in He. rewrite He in Hn. injection Hn as ->.
        rewrite Hmiss in E. discriminate.
      * apply list_elem_of_singleton in He as ->. simpl in Hn. congruence.
    + eapply IH; [|exact He|done]. by apply after_missing.
Qed.

Lemma precise_report_failed U d p q e :
  Printed (MFailed q e) ∈ precise_report U d p <->
  q = p /\ is_Some (file_at d p) /\
  failure (fun _ => fix_specific_typescript_errors U) d p = Some e.
Proof.
  unfold precise_report. destruct (file_at d p) as [f|] eqn:E.
  - rewrite report_failed. split; [intros [? ?]|intros (? & ? & ?)]; eauto.
  - rewrite elem_of_cons, elem_of_nil. split.
    + intros [H|[]]. discriminate.
    + intros (_ & [x Hx] & _). discriminate.
Qed.

Lemma filter_absent (p : path) l :
  p ∉ l -> List.filter (fun q => bool_decide (q = p)) l = [].
Proof.
  induction l as [|a l IH]; simpl; intros H; [done|].
  apply not_elem_of_cons in H as [Hne Hl].
  rewrite bool_decide_eq_false_2 by done. auto.
Qed.

Lemma NoDup_once (p : path) l :
  NoDup l -> p ∈ l ->
  length (List.filter (fun q => bool_decide (q = p)) l) = 1.
Proof.
  induction 1 as [|a l Ha Hl IH]; intros Hp.
  - by apply elem_of_nil in Hp.
  - simpl. destruct (decide (a = p)) as [->|Hne].
    + rewrite bool_decide_eq_true_2 by done. simpl.
      by rewrite filter_absent.
    + rewrite bool_decide_eq_false_2 by done.
      apply elem_of_cons in Hp as [->|Hp]; [done|auto].
Qed.

Lemma elem_of_globbed (glob : string -> list path) patterns : forall acc p,
  p ∈ foldl (fun acc pattern => acc ++ glob pattern) acc patterns <->
  p ∈ acc \/ exists pattern, pattern ∈ patterns /\ p ∈ glob pattern.
Proof.
  induction patterns as [|a ps IH]; intros acc p; simpl.
  - split; [auto|]. intros [H|(x & Hx & _)]; [done|].
    by apply elem_of_nil in Hx.
  - rewrite IH, elem_of_app. split.
    + intros [[H|H]|(x & Hx & H)]; auto.
      * right. exists a. split; [apply elem_of_cons; by left|done].
      * right. exists x. split; [apply elem_of_cons; by right|done].
    + intros [H|(x & Hx & H)]; auto.
      apply elem_of_cons in Hx as [->|Hx]; auto.
      right. by exists x.
Qed.

Lemma distinct_files_plain fs l : distinct_files (plain fs) l <-> NoDup l.
Proof.
  unfold distinct_files.
  replace (target (plain fs) <$> l) with l; [done|].
  rewrite <- (list_fmap_id l) at 1. apply list_fmap_ext.
  intros i x _. unfold target, plain. simpl. by rewrite lookup_empty.
Qed.

(** The [main] functions around their loops. *)
Lemma glob_main_run repair su (cands : list path) w :
  (print MStart;;
   print (MFound (length cands));;
   fixed_count <- count_fixed (fix_file_with repair su) cands 0;;
   print (MSummary fixed_count);;
   print MTypecheck;;
   os_system "npm run typecheck") w =
  (Value tt,
   World (foldl (after repair) (on_disk w) cands)
         (trace w
          ++ [Printed MStart; Printed (MFound (length cands))]
          ++ loop_events repair su (on_disk w) cands
          ++ closing (length (List.filter is_write
                                (loop_events repair su (on_disk w) cands))))).
Proof.
  unfold bind at 1 2, print at 1 2, emit. unfold bind at 1.
  rewrite count_fixed_run.
  unfold bind, print, os_system, emit, closing. cbn [on_disk trace].
  by rewrite <- !app_assoc.
Qed.

Lemma simple_main_run glob list_of_set w :
  simple_fix.main glob list_of_set w =
  (Value tt,
   World (foldl (after (fun _ => simple_fix)) (on_disk w)
            (resolve glob list_of_set simple_fix.patterns))
         (trace w
          ++ [Printed MStart;
              Printed (MFound (length (resolve glob list_of_set
                                         simple_fix.patterns)))]
          ++ loop_events (fun _ => simple_fix) true (on_disk w)
               (resolve glob list_of_set simple_fix.patterns)
          ++ closing (length (List.filter is_write
                (loop_events (fun _ => simple_fix) true (on_disk w)
                   (resolve glob list_of_set simple_fix.patterns)))))).
Proof. apply (glob_main_run (fun _ => simple_fix) true). Qed.

Lemma smart_main_run U glob list_of_set w :
  smart_fix.main U glob list_of_set w =
  (Value tt,
   World (foldl (after (smart_repair U)) (on_disk w)
            (resolve glob list_of_set smart_fix.patterns))
         (trace w
          ++ [Printed MStart;
              Printed (MFound (length (resolve glob list_of_set
                                         smart_fix.patterns)))]
          ++ loop_events (smart_repair U) false (on_disk w)
               (resolve glob list_of_set smart_fix.patterns)
          ++ closing (length (List.filter is_write
                (loop_events (smart_repair U) false (on_disk w)
                   (resolve glob list_of_set smart_fix.patterns)))))).
Proof. apply (glob_main_run (smart_repair U) false). Qed.

Lemma precise_main_run U w :
  final_precise_fix.main U w =
  (Value tt,
   World (foldl (after (fun _ => fix_specific_typescript_errors U))
            (on_disk w) final_precise_fix.problem_files)
         (trace w
          ++ [Printed MStart]
          ++ precise_events U (on_disk w) final_precise_fix.problem_files
          ++ closing (length (List.filter is_write
                (precise_events U (on_disk w)
                   final_precise_fix.problem_files))))).
Proof.
  unfold final_precise_fix.main.
  unfold bind at 1, print at 1, emit. unfold bind at 1.
  rewrite fix_existing_run.
  unfold bind, print, os_system, emit, closing. cbn [on_disk trace].
  by rewrite <- !app_assoc.
Qed.

(** ** The properties of the specification *)

(** *** Non-overreach (C1) *)

(** smart_fix.py rewrites a valid array index. *)
Lemma smart_fix_rewrites_array_index U :
  fix_typescript_syntax U (txt "arr[0]") = txt "arr[]".
Proof. vm_compute. reflexivity. Qed.

(** final_precise_fix.py rewrites a valid array type. *)
Lemma precise_fix_rewrites_array_type U :
  fix_specific_typescript_errors U (txt "let xs: string[];")
  = txt "let xs: string[0];".
Proof. vm_compute. reflexivity. Qed.

(** C1, as the specification states it, fails: simple_fix.py turns the
    valid comparison [if (a > b)] into [if (a, b)]. *)
Lemma simple_fix_rewrites_valid_comparison :
  simple_fix (txt "if (a > b)") = txt "if (a, b)" /\
  simple_fix (txt "if (a > b)") <> txt "if (a > b)".
Proof. split; [vm_compute; reflexivity|]. vm_compute. discriminate. Qed.

(** C1, amended: a snippet in which no pattern of a rule table has a match
    is left as it is by that table, for the tables of all four scripts; and
    every rule of every table needs a comma, a greater-than sign or an
    opening bracket in order to fire, so a snippet with none of these three
    characters is left as it is by all of them. *)
Theorem non_overreach_without_match (alnum_hi : char -> bool) (snippet : text) :
  (untouched replacements snippet = true -> simple_fix snippet = snippet) /\
  (untouched (typescript_rules alnum_hi) snippet = true ->
     fix_typescript_syntax alnum_hi snippet = snippet) /\
  (untouched vue_rules snippet = true -> fix_vue_syntax snippet = snippet) /\
  (untouched (precise_rules alnum_hi) snippet = true ->
     fix_specific_typescript_errors alnum_hi snippet = snippet) /\
  (forall rs, rs ∈ final_fix_tables -> untouched rs snippet = true ->
     apply_rules rs snippet = snippet) /\
  (free_of triggers snippet = true ->
     simple_fix snippet = snippet /\
     fix_typescript_syntax alnum_hi snippet = snippet /\
     fix_vue_syntax snippet = snippet /\
     fix_specific_typescript_errors alnum_hi snippet = snippet /\
     forall rs, rs ∈ final_fix_tables -> apply_rules rs snippet = snippet).
Proof.
  repeat split; try (intros; by apply apply_rules_untouched);
    try (by apply unchanged_without_triggers).
  intros rs Hrs. apply unchanged_without_triggers; [|done].
  unfold final_fix_tables in Hrs.
  rewrite !elem_of_cons, elem_of_nil in Hrs.
  destruct Hrs as [->|[->|[->|[->|[->|[->|[->|[]]]]]]]]; reflexivity.
Qed.

Lemma non_overreach_without_match_witness :
  simple_fix (txt "const f = (a, b) => a + b;")
    = txt "const f = (a, b) => a + b;" /\
  fix_typescript_syntax (fun _ => false) (txt "while (i < n) { i += 1; }")
    = txt "while (i < n) { i += 1; }".
Proof.
  split.
  - apply (proj1 (non_overreach_without_match (fun _ => false)
                      (txt "const f = (a, b) => a + b;"))).
    vm_compute. reflexivity.
  - apply (proj1 (proj2 (non_overreach_without_match (fun _ => false)
                           (txt "while (i < n) { i += 1; }")))).
    vm_compute. reflexivity.
Defined.

(** *** Idempotence (C2) *)

(** smart_fix.py is not idempotent either. *)
Lemma smart_fix_second_pass U :
  fix_typescript_syntax U (txt "a:,b:,c") = txt "a: b:,c" /\
  fix_typescript_syntax U (txt "a: b:,c") = txt "a: b: c".
Proof. split; vm_compute; reflexivity. Qed.

(** C2, as the specification states it, fails: on [f(a > b > c)] the second
    pass of simple_fix.py rewrites what the first pass produced. *)
Lemma simple_fix_not_idempotent :
  simple_fix (txt "f(a > b > c)") = txt "f(a > b, c)" /\
  simple_fix (simple_fix (txt "f(a > b > c)")) = txt "f(a, b, c)".
Proof. split; vm_compute; reflexivity. Qed.

(** C2, amended: applying a rule table twice gives the result of applying
    it once whenever no pattern of the table has a match in that result. *)
Theorem idempotent_when_result_untouched (alnum_hi : char -> bool) (f : text) :
  (untouched replacements (simple_fix f) = true ->
     simple_fix (simple_fix f) = simple_fix f) /\
  (untouched (typescript_rules alnum_hi) (fix_typescript_syntax alnum_hi f)
     = true ->
   fix_typescript_syntax alnum_hi (fix_typescript_syntax alnum_hi f)
   = fix_typescript_syntax alnum_hi f) /\
  (untouched (precise_rules alnum_hi)
     (fix_specific_typescript_errors alnum_hi f) = true ->
   fix_specific_typescript_errors alnum_hi
     (fix_specific_typescript_errors alnum_hi f)
   = fix_specific_typescript_errors alnum_hi f) /\
  (forall rs, rs ∈ final_fix_tables ->
     untouched rs (apply_rules rs f) = true ->
     apply_rules rs (apply_rules rs f) = apply_rules rs f).
Proof.
  repeat split; intros; by apply apply_rules_untouched.
Qed.

Lemma idempotent_when_result_untouched_witness :
  simple_fix (simple_fix (txt "if (a > b)")) = simple_fix (txt "if (a > b)").
Proof.
  apply (proj1 (idempotent_when_result_untouched (fun _ => false)
                  (txt "if (a > b)"))).
  vm_compute. reflexivity.
Defined.


(** *** Targeted correction (C5) *)

(** C5: wherever the text [if (cleanedSize, 10) {] stands in the input, the
    substitutions final_fix.py applies to cache.ts turn it into
    [if (cleanedSize >= 10) {], and wherever
    [const toDelete: string[] = [0];] stands they turn it into
    [const toDelete: string[] = [];]: the result is the rewritten snippet
    between what the rules make of the text in front of it and of the
    text behind it. *)
Theorem targeted_correction (pre post : text) :
  apply_rules cache_rules (pre ++ txt "if (cleanedSize, 10) {" ++ post)
    = apply_rules cache_rules pre ++ txt "if (cleanedSize >= 10) {"
        ++ apply_rules cache_rules post /\
  apply_rules cache_rules
    (pre ++ txt "const toDelete: string[] = [0];" ++ post)
    = apply_rules cache_rules pre ++ txt "const toDelete: string[] = [];"
        ++ apply_rules cache_rules post.
Proof.
  unfold apply_rules, cache_rules. cbn [foldl]. split.
  - change (txt "if (cleanedSize, 10) {")
      with (txt "if (cleanedSize, " ++ txt "10) {").
    rewrite (apply_rule_hits _ (txt "if (cleanedSize, ") (txt "10) {"))
      by reflexivity.
    change (expand _ [] ++ txt "10) {") with (txt "if (cleanedSize >= 10) {").
    rewrite (apply_rule_passes _ (txt "if (cleanedCount, ")
               (txt "if (cleanedSize >= 10) {")) by reflexivity.
    rewrite (apply_rule_passes _ (txt "const toDelete: string[] = [0];")
               (txt "if (cleanedSize >= 10) {")) by reflexivity.
    reflexivity.
  - rewrite (apply_rule_passes _ (txt "if (cleanedSize, ")
               (txt "const toDelete: string[] = [0];")) by reflexivity.
    rewrite (apply_rule_passes _ (txt "if (cleanedCount, ")
               (txt "const toDelete: string[] = [0];")) by reflexivity.
    pose proof (apply_rule_hits
                  (R "const toDelete: string\[\] = \[0\];"
                     (lit "const toDelete: string[] = [0];")
                     "const toDelete: string[] = [];")
                  (txt "const toDelete: string[] = [0];") []) as H.
    rewrite !app_nil_r in H. rewrite H by reflexivity.
    reflexivity.
Qed.

(** *** Inconsistent rule tables (C9) *)

(** C9: simple_fix.py rewrites [[];] to [[0];] where smart_fix.py and
    final_fix.py rewrite [[0];] to [[];], so there is a text on which the
    scripts disagree. *)
Theorem array_literal_rules_conflict (alnum_hi : char -> bool) :
  simple_fix (txt "x = [];") = txt "x = [0];" /\
  fix_typescript_syntax alnum_hi (txt "x = [];") = txt "x = [];" /\
  fix_typescript_syntax alnum_hi (txt "x = [0];") = txt "x = [];" /\
  simple_fix (txt "x = [0];") = txt "x = [0];" /\
  apply_rules cache_rules (txt "const toDelete: string[] = [0];")
    = txt "const toDelete: string[] = [];" /\
  simple_fix (txt "const toDelete: string[] = [];")
    = txt "const toDelete: string[] = [0];" /\
  fix_typescript_syntax alnum_hi (txt "x[0]") = txt "x[]" /\
  simple_fix (txt "x[0]") = txt "x[0]" /\
  exists s, simple_fix s <> fix_typescript_syntax alnum_hi s
            /\ simple_fix s <> apply_rules cache_rules s.
Proof.
  repeat split; try (vm_compute; reflexivity).
  exists (txt "const toDelete: string[] = [];").
  split; vm_compute; discriminate.
Qed.

(** *** No write for an unchanged file (C3) *)

(** C3, as the specification states it, fails for final_fix.py: a file the
    rules leave as it is gets written all the same, and is printed as
    repaired. *)
Lemma final_fix_writes_unchanged_file :
  let w := World (plain {[ final_fix.cache_file :=
                             File (Some (txt "const a = 1;")) Writable ]}) [] in
  apply_rules cache_rules (txt "const a = 1;") = txt "const a = 1;" /\
  trace (final_fix.fix_specific_errors w).2 =
    [ Written final_fix.cache_file (txt "const a = 1;");
      Printed (MFixed final_fix.cache_file) ].
Proof. split; vm_compute; reflexivity. Qed.

(** C3, amended: the [fix_file] of simple_fix.py, smart_fix.py and
    final_precise_fix.py returns [False] for a file whose text the rules
    leave as it is, and leaves the disk alone; the only event is the
    message simple_fix.py prints for an unchanged file.  (final_fix.py has
    no such test.) *)
Theorem unchanged_file_is_not_written alnum_hi repair fixf p c acc w :
  (repair, fixf) ∈ variants alnum_hi ->
  file_at (on_disk w) p = Some (File (Some c) acc) ->
  repair p c = c ->
  exists msgs,
    fixf p w = (Value false, World (on_disk w) (trace w ++ msgs)) /\
    (msgs = [] \/ msgs = [Printed (MUnchanged p)]).
Proof.
  intros Hv Hp Hc. apply variants_shape in Hv as [su ->].
  rewrite fix_file_with_run.
  unfold fixable, after, report. rewrite Hp, Hc, text_ne_same.
  exists (if su then [Printed (MUnchanged p)] else []).
  split.
  - by destruct acc.
  - destruct su; auto.
Qed.

Lemma unchanged_file_is_not_written_witness :
  let w := World (plain {[ txt "src/a.ts" :=
                             File (Some (txt "let n = 1;")) Writable ]}) [] in
  exists msgs,
    simple_fix.fix_file (txt "src/a.ts") w
      = (Value false, World (on_disk w) (trace w ++ msgs)) /\
    (msgs = [] \/ msgs = [Printed (MUnchanged (txt "src/a.ts"))]).
Proof.
  intros w.
  apply (unchanged_file_is_not_written (fun _ => false) (fun _ => simple_fix)
           simple_fix.fix_file (txt "src/a.ts") (txt "let n = 1;") Writable w).
  - unfold variants. apply elem_of_cons. by left.
  - vm_compute. reflexivity.
  - vm_compute. reflexivity.
Defined.

(** *** Isolation of I/O failures (C4) *)

(** C4, as the specification states it, fails for final_fix.py: when
    cache.ts cannot be read the error ends the run, and fileManager.ts, which
    the rules would repair, is left as it was. *)
Lemma final_fix_aborts_on_unreadable_file :
  let w := World (plain (<[ final_fix.cache_file := File None Writable ]>
                    {[ final_fix.filemanager_file :=
                         File (Some (txt "const mergedLines: string[] = [0];"))
                              Writable ]})) [] in
  final_fix.main w
  = (Raised (ReadError final_fix.cache_file),
     World (on_disk w) [Printed MStart]).
Proof. vm_compute. reflexivity. Qed.

(** C4, amended: in simple_fix.py, smart_fix.py and final_precise_fix.py a
    read or write failure is caught inside [fix_file].  Neither the loop of
    simple_fix.py and smart_fix.py nor the loop of final_precise_fix.py
    ever ends in an exception, and each goes on behind a file that failed:
    when the candidate paths name pairwise different files, every
    candidate ends as [fix_file] alone would leave it, whatever happens to
    the others, and a failure message is printed for exactly the files
    that ran into an error.  Each [main] ends normally, with the disk its
    loop leaves and the summary and the type check behind the events of
    the loop.  (final_fix.py catches nothing.) *)
Theorem file_errors_are_isolated alnum_hi repair fixf l n w :
  (repair, fixf) ∈ variants alnum_hi ->
  (exists k w', count_fixed fixf l n w = (Value k, w')) /\
  (distinct_files (on_disk w) l ->
   forall k w', count_fixed fixf l n w = (Value k, w') ->
     (forall p, p ∈ l ->
        file_at (on_disk w') p = repaired repair p (file_at (on_disk w) p)) /\
     (forall p e, p ∈ l -> failure repair (on_disk w) p = Some e ->
        Printed (MFailed p e) ∈ trace w') /\
     (forall p e, Printed (MFailed p e) ∈ trace w' ->
        Printed (MFailed p e) ∈ trace w \/
        (p ∈ l /\ failure repair (on_disk w) p = Some e))) /\
  (exists k w',
     final_precise_fix.fix_existing alnum_hi l n w = (Value k, w')) /\
  (distinct_files (on_disk w) l ->
   forall k w',
     final_precise_fix.fix_existing alnum_hi l n w = (Value k, w') ->
     (forall p, p ∈ l ->
        file_at (on_disk w') p
        = repaired (fun _ => fix_specific_typescript_errors alnum_hi) p
            (file_at (on_disk w) p)) /\
     (forall p e, p ∈ l -> is_Some (file_at (on_disk w) p) ->
        failure (fun _ => fix_specific_typescript_errors alnum_hi)
          (on_disk w) p = Some e ->
        Printed (MFailed p e) ∈ trace w') /\
     (forall p e, Printed (MFailed p e) ∈ trace w' ->
        Printed (MFailed p e) ∈ trace w \/
        (p ∈ l /\ is_Some (file_at (on_disk w) p) /\
         failure (fun _ => fix_specific_typescript_errors alnum_hi)
           (on_disk w) p = Some e))) /\
  (forall glob list_of_set,
     (exists k w1,
        count_fixed simple_fix.fix_file
          (resolve glob list_of_set simple_fix.patterns) 0
          (World (on_disk w)
             (trace w ++ [Printed MStart;
                          Printed (MFound (length (resolve glob list_of_set
                                                     simple_fix.patterns)))]))
        = (Value k, w1) /\
        simple_fix.main glob list_of_set w
        = (Value tt, World (on_disk w1) (trace w1 ++ closing k))) /\
     (exists k w1,
        count_fixed (smart_fix.fix_file alnum_hi)
          (resolve glob list_of_set smart_fix.patterns) 0
          (World (on_disk w)
             (trace w ++ [Printed MStart;
                          Printed (MFound (length (resolve glob list_of_set
                                                     smart_fix.patterns)))]))
        = (Value k, w1) /\
        smart_fix.main alnum_hi glob list_of_set w
        = (Value tt, World (on_disk w1) (trace w1 ++ closing k)))) /\
  (exists k w1,
     final_precise_fix.fix_existing alnum_hi final_precise_fix.problem_files 0
       (World (on_disk w) (trace w ++ [Printed MStart])) = (Value k, w1) /\
     final_precise_fix.main alnum_hi w
     = (Value tt, World (on_disk w1) (trace w1 ++ closing k))).
Proof.
  intros Hv. apply variants_shape in Hv as [su ->].
  split; [rewrite count_fixed_run; eauto|].
  split.
  { intros Hd k w' Hrun. rewrite count_fixed_run in Hrun.
    injection Hrun as <- <-. cbn [on_disk trace].
    rewrite loop_events_distinct by done. repeat split.
    - intros p Hp. by apply foldl_after_lookup.
    - intros p e Hp He. apply elem_of_app. right.
      apply elem_of_flat_map. exists p. split; [done|].
      by apply report_failed.
    - intros p e [H|H]%elem_of_app; [by left|right].
      apply elem_of_flat_map in H as (q & Hq & H).
      apply report_failed in H as [-> H]. done. }
  split; [rewrite fix_existing_run; eauto|].
  split.
  { intros Hd k w' Hrun. rewrite fix_existing_run in Hrun.
    injection Hrun as <- <-. cbn [on_disk trace].
    rewrite precise_events_distinct by done. repeat split.
    - intros p Hp. by apply foldl_after_lookup.
    - intros p e Hp Hex He. apply elem_of_app. right.
      apply elem_of_flat_map. exists p. split; [done|].
      by apply precise_report_failed.
    - intros p e [H|H]%elem_of_app; [by left|right].
      apply elem_of_flat_map in H as (q & Hq & H).
      apply precise_report_failed in H as (-> & Hex & H). done. }
  split.
  - intros glob list_of_set. split.
    + change simple_fix.fix_file with (fix_file_with (fun _ => simple_fix) true).
      rewrite count_fixed_run, simple_main_run. do 2 eexists.
      split; [reflexivity|]. cbn [on_disk trace]. by rewrite <- !app_assoc.
    + change (smart_fix.fix_file alnum_hi)
        with (fix_file_with (smart_repair alnum_hi) false).
      rewrite count_fixed_run, smart_main_run. do 2 eexists.
      split; [reflexivity|]. cbn [on_disk trace]. by rewrite <- !app_assoc.
  - rewrite fix_existing_run, precise_main_run. do 2 eexists.
    split; [reflexivity|]. cbn [on_disk trace]. by rewrite <- !app_assoc.
Qed.

Lemma file_errors_are_isolated_witness :
  let w := World (plain (<[ txt "src/bad.ts" := File None Writable ]>
                    (<[ txt "src/ro.ts" :=
                          File (Some (txt "let ys: string[];")) ReadOnly ]>
                       {[ txt "src/a.ts" :=
                            File (Some (txt "let xs: string[];"))
                                 Writable ]}))) [] in
  let l := [txt "src/bad.ts"; txt "src/ro.ts"; txt "src/a.ts"] in
  let repair := fun _ : path => fix_specific_typescript_errors (fun _ => false) in
  let w' := (final_precise_fix.fix_existing (fun _ => false) l 0 w).2 in
  (forall p, p ∈ l ->
     file_at (on_disk w') p = repaired repair p (file_at (on_disk w) p)) /\
  (forall p e, p ∈ l -> is_Some (file_at (on_disk w) p) ->
     failure repair (on_disk w) p = Some e ->
     Printed (MFailed p e) ∈ trace w') /\
  (forall p e, Printed (MFailed p e) ∈ trace w' ->
     Printed (MFailed p e) ∈ trace w \/
     (p ∈ l /\ is_Some (file_at (on_disk w) p) /\
      failure repair (on_disk w) p = Some e)).
Proof.
  intros w l repair w'.
  assert (Hv : ((fun _ : path => simple_fix), simple_fix.fix_file)
               ∈ variants (fun _ => false)).
  { unfold variants. apply elem_of_cons. by left. }
  apply (proj1 (proj2 (proj2 (proj2
           (file_errors_are_isolated (fun _ => false)
              (fun _ => simple_fix) simple_fix.fix_file l 0 w Hv))))
           ltac:(apply (bool_decide_unpack _); vm_compute; exact I) 1 w').
  vm_compute. reflexivity.
Defined.

(** *** Missing explicit paths (C6) *)

(** C6, as the specification states it, fails for final_fix.py: when none of
    its target files exists the run prints its banner and its closing
    lines and nothing that names a missing path. *)
Lemma final_fix_skips_missing_silently :
  final_fix.main (World (plain ∅) [])
  = (Value tt,
     World (plain ∅) [ Printed MStart; Printed MDone; Printed MTypecheck;
                       System "npm run typecheck" ]).
Proof. vm_compute. reflexivity. Qed.

(** C6, amended: final_precise_fix.py prints a message naming every path of
    its file list that does not exist, does not create or touch that path,
    says nothing else about it, and ends normally; final_fix.py skips a
    target that does not exist without any message or effect, and goes
    on. *)
Theorem missing_path_is_skipped alnum_hi w :
  (exists w', final_precise_fix.main alnum_hi w = (Value tt, w') /\
     forall p, p ∈ final_precise_fix.problem_files ->
       file_at (on_disk w) p = None ->
       Printed (MMissing p) ∈ trace w' /\
       file_at (on_disk w') p = None /\
       (forall e, e ∈ trace w' -> names e = Some p ->
          e ∈ trace w \/ e = Printed (MMissing p))) /\
  (forall target rules, file_at (on_disk w) target = None ->
     final_fix.fix_block target rules w = (Value tt, w)).
Proof.
  split.
  - rewrite precise_main_run. eexists. split; [reflexivity|].
    intros p Hp Hmiss. cbn [on_disk trace]. split; [|split].
    + rewrite !elem_of_app. right. right. left.
      by apply precise_events_missing.
    + by apply foldl_after_missing.
    + intros e He Hn. rewrite !elem_of_app in He.
      destruct He as [He|[He|[He|He]]].
      * by left.
      * apply list_elem_of_singleton in He as ->. discriminate.
      * right. by apply (precise_events_of_missing alnum_hi _ _ _ _ Hmiss He).
      * unfold closing in He. rewrite !elem_of_cons, elem_of_nil in He.
        destruct He as [->|[->|[->|[]]]]; discriminate.
  - intros target rules Hmiss.
    unfold final_fix.fix_block, bind, os_path_exists. rewrite Hmiss.
    rewrite bool_decide_eq_false_2; [done|].
    intros [x Hx]. discriminate.
Qed.

Lemma missing_path_is_skipped_witness :
  Printed (MMissing (txt "src/main/lyric.ts"))
    ∈ trace (final_precise_fix.main (fun _ => false) (World (plain ∅) [])).2 /\
  final_fix.fix_block final_fix.cache_file cache_rules (World (plain ∅) [])
    = (Value tt, World (plain ∅) []).
Proof.
  split.
  - destruct (proj1 (missing_path_is_skipped (fun _ => false)
                       (World (plain ∅) [])))
      as (w' & Hrun & H).
    rewrite Hrun. simpl. apply H.
    + unfold final_precise_fix.problem_files. apply elem_of_cons. by left.
    + vm_compute. reflexivity.
  - apply (proj2 (missing_path_is_skipped (fun _ => false)
                    (World (plain ∅) []))).
    vm_compute. reflexivity.
Defined.

(** *** Deduplication (C7) *)

Section Resolve.
Variable glob : string -> list path.
Variable list_of_set : gset path -> list path.
Hypothesis list_of_set_perm : forall X, list_of_set X ≡ₚ elements X.

(** C7: whatever [glob.glob] returns for the patterns, and in whatever order
    Python iterates over the set, the candidate list holds no path twice
    and holds exactly the paths some pattern produced: each of them once. *)
Theorem candidates_deduplicated (patterns : list string) :
  NoDup (resolve glob list_of_set patterns) /\
  (forall p, p ∈ resolve glob list_of_set patterns <->
             exists pattern, pattern ∈ patterns /\ p ∈ glob pattern) /\
  (forall p pattern, pattern ∈ patterns -> p ∈ glob pattern ->
     length (List.filter (fun q => bool_decide (q = p))
               (resolve glob list_of_set patterns)) = 1).
Proof.
  assert (Hnd : NoDup (resolve glob list_of_set patterns)).
  { unfold resolve. rewrite list_of_set_perm. apply NoDup_elements. }
  assert (Hin : forall p, p ∈ resolve glob list_of_set patterns <->
                 exists pattern, pattern ∈ patterns /\ p ∈ glob pattern).
  { intros p. unfold resolve. rewrite list_of_set_perm, elem_of_elements,
      elem_of_list_to_set, elem_of_globbed.
    split; [intros [H|H]; [by apply elem_of_nil in H|done]|auto]. }
  repeat split; try done; try apply Hin.
  intros p pattern Hpat Hp. apply NoDup_once; [done|].
  apply Hin. by exists pattern.
Qed.
End Resolve.

Lemma candidates_deduplicated_witness :
  length (List.filter (fun q => bool_decide (q = txt "src/a.d.ts"))
            (resolve overlapping_glob elements simple_fix.patterns)) = 1.
Proof.
  apply (proj2 (proj2 (candidates_deduplicated overlapping_glob elements
                         (fun X => reflexivity (elements X))
                         simple_fix.patterns))
           (txt "src/a.d.ts") "src/**/*.d.ts").
  - unfold simple_fix.patterns. rewrite !elem_of_cons. auto.
  - vm_compute. apply elem_of_cons. by left.
Defined.

(** *** Per-file purity and order independence (C8) *)




(** *** The return value of fix_file (C10) *)

(** C10: [fix_file] never raises; it returns [True] exactly when the file
    could be read, the rules altered its text and the new text was
    written, and [False] both for an unchanged file and for a file that
    ran into a read or write error; so the count of the loop is the number
    of writes that went through, which leaves the failed files out: over
    paths that name pairwise different files it is the number of
    candidates that were rewritten. *)
Theorem fix_file_return_value alnum_hi repair fixf (p : path) (w : world) :
  (repair, fixf) ∈ variants alnum_hi ->
  exists b w',
    fixf p w = (Value b, w') /\
    (b = true <->
     exists c, file_at (on_disk w) p = Some (File (Some c) Writable) /\
               repair p c <> c) /\
    (b = true ->
     exists c, file_at (on_disk w) p = Some (File (Some c) Writable) /\
       file_at (on_disk w') p = Some (File (Some (repair p c)) Writable) /\
       Written p (repair p c) ∈ trace w') /\
    (forall c acc, file_at (on_disk w) p = Some (File (Some c) acc) ->
       repair p c = c -> b = false) /\
    (forall e, failure repair (on_disk w) p = Some e -> b = false) /\
    (forall l n,
       exists k evs w'',
         count_fixed fixf l n w = (Value k, w'') /\
         trace w'' = trace w ++ evs /\
         k = n + length (List.filter is_write evs) /\
         (distinct_files (on_disk w) l ->
          k = n + length (List.filter (fixable repair (on_disk w)) l)) /\
         forall q e, failure repair (on_disk w) q = Some e ->
                     fixable repair (on_disk w) q = false).
Proof.
  intros Hv. apply variants_shape in Hv as [su ->].
  rewrite fix_file_with_run. do 2 eexists. split; [reflexivity|].
  assert (Hfail : forall q e, failure repair (on_disk w) q = Some e ->
                    fixable repair (on_disk w) q = false).
  { intros q e. unfold failure, fixable.
    destruct (file_at (on_disk w) q) as [[[c|] [| |kept]]|]; try done.
    destruct (text_ne (repair q c) c); simpl; done. }
  cbn [on_disk trace]. repeat split.
  - unfold fixable.
    destruct (file_at (on_disk w) p) as [[[c|] [| |kept]]|]; try done.
    intros H. exists c. split; [done|]. by apply text_ne_true.
  - intros (c & Hc & Hch). unfold fixable. rewrite Hc. by apply text_ne_true.
  - unfold fixable, after, report.
    destruct (file_at (on_disk w) p) as [[[c|] [| |kept]]|] eqn:E; try done.
    intros T. rewrite T. exists c. repeat split.
    + rewrite file_at_store. by destruct (decide (_ = _)).
    + apply elem_of_app. right. apply elem_of_cons. by left.
  - intros c acc Hc Heq. unfold fixable. rewrite Hc, Heq, text_ne_same.
    by destruct acc.
  - apply Hfail.
  - intros l n. rewrite count_fixed_run. do 3 eexists.
    split; [reflexivity|]. cbn [on_disk trace].
    split; [reflexivity|]. split; [reflexivity|]. split; [|apply Hfail].
    intros Hd. rewrite loop_events_distinct by done. f_equal.
    induction l as [|a l IH]; simpl; [done|].
    rewrite List.filter_app, length_app, report_writes.
    apply distinct_files_cons in Hd as [_ Hd].
    rewrite (IH Hd). by destruct (fixable repair (on_disk w) a).
Qed.

Lemma fix_file_return_value_witness :
  let w := World (plain {[ txt "src/a.ts" :=
                             File (Some (txt "if (a > b)")) ReadOnly ]}) [] in
  exists b w',
    simple_fix.fix_file (txt "src/a.ts") w = (Value b, w') /\
    (forall e, failure (fun _ => simple_fix) (on_disk w) (txt "src/a.ts")
               = Some e -> b = false).
Proof.
  intros w.
  destruct (fix_file_return_value (fun _ => false) (fun _ => simple_fix)
              simple_fix.fix_file (txt "src/a.ts") w) as (b & w' & H).
  - unfold variants. apply elem_of_cons. by left.
  - exists b, w'. split; [apply H|apply H].
Defined.

(** ** Further properties of the code *)

(** *** Matches of the scripts' rules *)

(** No pattern of any of the four scripts can match without consuming
    text: where a rule of a script matches at the head of a text, what is
    left behind the match is shorter than the text, the substitution puts
    the expanded template there and goes on behind the match.  So no rule
    can insert its replacement between two characters or at the end of
    the text. *)
Theorem every_rule_match_consumes (alnum_hi : char -> bool) (rs : list rule)
    (r : rule) (s : text) (m : marks) (rest : text) :
  rs ∈ all_tables alnum_hi -> r ∈ rs ->
  exec (rule_pattern r) s false = Some (m, rest) ->
  length rest < length s /\
  apply_rule r s = expand (rule_template r) m ++ apply_rule r rest.
Proof.
  intros Hrs Hr Hm. apply re_sub_match; [|done].
  assert (Hall : forallb (fun r => negb (nullable (rule_pattern r))) rs = true).
  { unfold all_tables, final_fix_tables in Hrs. simpl in Hrs.
    rewrite !elem_of_cons, elem_of_nil in Hrs.
    repeat (destruct Hrs as [->|Hrs]; [reflexivity|]). done. }
  rewrite forallb_forall in Hall. apply list_elem_of_In in Hr.
  specialize (Hall r Hr). by apply negb_true_iff in Hall.
Qed.

Lemma every_rule_match_consumes_witness :
  apply_rule (R "\[\];" (lit "[];") "[0];") (txt "[]; x")
  = txt "[0];" ++ apply_rule (R "\[\];" (lit "[];") "[0];") (txt " x").
Proof.
  refine (proj2 (every_rule_match_consumes (fun _ => false) replacements
                   (R "\[\];" (lit "[];") "[0];") (txt "[]; x") [] (txt " x")
                   _ _ _)).
  - unfold all_tables. apply elem_of_cons. by left.
  - apply list_elem_of_In. vm_compute. tauto.
  - vm_compute. reflexivity.
Defined.

(** *** Rules that replace a literal by itself *)

(** The second arrow rule of smart_fix.py (line 19) replaces [=>] by [=>]:
    it changes no text, and [fix_typescript_syntax] computes the same
    without it. *)
Theorem arrow_rule_changes_nothing (alnum_hi : char -> bool) (content : text) :
  exists r,
    typescript_rules alnum_hi !! 3 = Some r /\
    rule_source r = "=>" /\
    (forall s, apply_rule r s = s) /\
    fix_typescript_syntax alnum_hi content
    = apply_rules (delete 3 (typescript_rules alnum_hi)) content.
Proof.
  eexists. split; [reflexivity|]. split; [reflexivity|].
  assert (Hid : forall s, apply_rule (R "=>" (lit "=>") "=>") s = s).
  { intros s. apply (re_sub_same_literal (txt "=>")). discriminate. }
  split; [exact Hid|].
  unfold fix_typescript_syntax.
  change (typescript_rules alnum_hi)
    with (take 3 (typescript_rules alnum_hi)
            ++ [R "=>" (lit "=>") "=>"]
            ++ drop 4 (typescript_rules alnum_hi)) at 1.
  change (delete 3 (typescript_rules alnum_hi))
    with (take 3 (typescript_rules alnum_hi)
            ++ drop 4 (typescript_rules alnum_hi)).
  rewrite !apply_rules_app. f_equal.
  unfold apply_rules at 1. simpl. apply Hid.
Qed.

(** *** Characters of the result *)

(** No rule table of any script brings in a character from nowhere: each
    character of the result was in the text before or is a printable ASCII
    character of a replacement template.  So the rules never add a line
    break, a tab or a character outside ASCII. *)
Theorem rules_add_no_foreign_characters (alnum_hi : char -> bool)
    (rs : list rule) (s : text) (c : char) :
  rs ∈ all_tables alnum_hi ->
  c ∈ apply_rules rs s ->
  c ∈ s \/ printable c = true.
Proof.
  intros Hrs Hc. apply apply_rules_chars in Hc as [|(r & Hr & Hc)]; [by left|].
  right.
  assert (Hall : forallb (fun r => forallb printable
                                     (template_chars (rule_template r))) rs
                 = true).
  { unfold all_tables, final_fix_tables in Hrs. simpl in Hrs.
    rewrite !elem_of_cons, elem_of_nil in Hrs.
    repeat (destruct Hrs as [->|Hrs]; [reflexivity|]). done. }
  rewrite forallb_forall in Hall.
  apply list_elem_of_In in Hr. specialize (Hall r Hr).
  rewrite forallb_forall in Hall. apply Hall. by apply list_elem_of_In.
Qed.

Lemma rules_add_no_foreign_characters_witness :
  code "," ∈ txt "if (a > b)" \/ printable (code ",") = true.
Proof.
  apply (rules_add_no_foreign_characters (fun _ => false) replacements
           (txt "if (a > b)") (code ",")).
  - unfold all_tables. apply elem_of_cons. by left.
  - apply list_elem_of_In. vm_compute. tauto.
Defined.

(** *** final_fix.py: the blocks of fix_specific_errors *)

Lemma fix_specific_errors_blocks :
  final_fix.fix_specific_errors = run_blocks final_fix_blocks.
Proof. reflexivity. Qed.

Lemma fix_block_run target rules w :
  final_fix.fix_block target rules w =
    (match block_error (on_disk w) target with
     | None => Value tt
     | Some e => Raised e
     end,
     World (block_after (on_disk w) (target, rules))
           (trace w ++ block_report (on_disk w) (target, rules))).
Proof.
  destruct w as [d tr].
  unfold final_fix.fix_block, bind, os_path_exists, read_text, write_text,
    print, emit, ret, block_error, block_after, block_report; simpl.
  destruct (file_at d target) as [[[c|] [| |kept]]|] eqn:E; simpl;
    rewrite ?E; simpl; rewrite ?E; simpl;
    rewrite ?app_nil_r, <- ?app_assoc; done.
Qed.

Lemma run_blocks_cons b rest w :
  run_blocks (b :: rest) w
  = (final_fix.fix_block b.1 b.2;; run_blocks rest) w.
Proof.
  destruct b as [target rules]. destruct rest as [|b' rest]; [|done].
  simpl. unfold bind, ret.
  destruct (final_fix.fix_block target rules w) as [[[]|e] w']; done.
Qed.

Lemma links_block_after d b : links (block_after d b) = links d.
Proof.
  unfold block_after.
  by destruct (file_at d b.1) as [[[c|] [| |kept]]|].
Qed.

Lemma target_block_after d b q : target (block_after d b) q = target d q.
Proof. unfold target. by rewrite links_block_after. Qed.

Lemma file_at_block_after d b q :
  file_at (block_after d b) q =
    if decide (target d q = target d b.1) then rewritten b.2 (file_at d b.1)
    else file_at d q.
Proof.
  assert (Hsame : target d q = target d b.1 -> file_at d q = file_at d b.1).
  { unfold file_at. by intros ->. }
  unfold block_after, rewritten.
  destruct (file_at d b.1) as [[[c|] [| |kept]]|];
    try (destruct (decide (target d q = target d b.1)) as [H|H];
         [by rewrite (Hsame H)|done]);
    by rewrite file_at_store.
Qed.

Lemma file_at_block_after_ne d b q :
  target d q <> target d b.1 -> file_at (block_after d b) q = file_at d q.
Proof.
  intros H. rewrite file_at_block_after.
  by destruct (decide (target d q = target d b.1)).
Qed.

Lemma rewritten_is_Some rules f : is_Some (rewritten rules f) <-> is_Some f.
Proof. destruct f as [[[c|] [| |kept]]|]; simpl; split; eauto. Qed.

Lemma targets_block_after d b (l : list path) :
  target (block_after d b) <$> l = target d <$> l.
Proof. apply list_fmap_ext. intros i x _. apply target_block_after. Qed.

Lemma foldl_block_after_frame : forall bs d q,
  target d q ∉ target d <$> bs.*1 ->
  file_at (foldl block_after d bs) q = file_at d q.
Proof.
  induction bs as [|b bs IH]; intros d q Hq; cbn [foldl]; [done|].
  rewrite !fmap_cons in Hq. apply not_elem_of_cons in Hq as [Hq1 Hq2].
  rewrite IH by (by rewrite targets_block_after, target_block_after).
  by apply file_at_block_after_ne.
Qed.

Lemma foldl_block_after_lookup : forall bs d t rules,
  distinct_files d bs.*1 -> (t, rules) ∈ bs ->
  file_at (foldl block_after d bs) t = rewritten rules (file_at d t).
Proof.
  induction bs as [|b bs IH]; intros d t rules Hd Hin; cbn [foldl].
  - by apply elem_of_nil in Hin.
  - rewrite fmap_cons in Hd. apply distinct_files_cons in Hd as [Hne Hd].
    apply elem_of_cons in Hin as [<-|Hin].
    + rewrite foldl_block_after_frame.
      * rewrite file_at_block_after. simpl. by destruct (decide (_ = _)).
      * rewrite targets_block_after, target_block_after. simpl.
        intros (x & Hx & Hxin)%list_elem_of_fmap. by apply (Hne x).
    + rewrite (IH _ t rules); [|unfold distinct_files;
                                 by rewrite targets_block_after|done].
      rewrite file_at_block_after_ne; [done|].
      apply Hne. apply list_elem_of_fmap. by exists (t, rules).
Qed.

Lemma foldl_block_after_Some : forall bs d q,
  is_Some (file_at (foldl block_after d bs) q) <-> is_Some (file_at d q).
Proof.
  induction bs as [|b bs IH]; intros d q; cbn [foldl]; [done|].
  rewrite IH, file_at_block_after.
  destruct (decide (target d q = target d b.1)) as [H|H]; [|done].
  rewrite rewritten_is_Some. unfold file_at. by rewrite H.
Qed.

Lemma links_foldl_block_after : forall bs d,
  links (foldl block_after d bs) = links d.
Proof.
  induction bs as [|b bs IH]; intros d; cbn [foldl]; [done|].
  by rewrite IH, links_block_after.
Qed.

Lemma block_error_after d b q :
  target d q <> target d b.1 ->
  block_error (block_after d b) q = block_error d q.
Proof. intros. unfold block_error. by rewrite file_at_block_after_ne. Qed.

Lemma block_report_after d b b' :
  target d b'.1 <> target d b.1 ->
  block_report (block_after d b) b' = block_report d b'.
Proof. intros. unfold block_report. by rewrite file_at_block_after_ne. Qed.

(** Blocks up to the first one that fails: the failing block leaves what
    its own write attempt leaves. *)
Lemma run_blocks_run : forall pre w,
  distinct_files (on_disk w) pre.*1 ->
  (forall b, b ∈ pre -> block_error (on_disk w) b.1 = None) ->
  (run_blocks pre w
   = (Value tt, World (foldl block_after (on_disk w) pre)
                      (trace w ++ flat_map (block_report (on_disk w)) pre))) /\
  (forall b post e, distinct_files (on_disk w) (pre ++ [b]).*1 ->
     block_error (on_disk w) b.1 = Some e ->
     run_blocks (pre ++ b :: post) w
     = (Raised e, World (foldl block_after (on_disk w) (pre ++ [b]))
                        (trace w ++ flat_map (block_report (on_disk w)) pre))).
Proof.
  induction pre as [|a pre IH]; intros w Hd Hok.
  - split.
    + simpl. unfold ret. destruct w. simpl. by rewrite app_nil_r.
    + intros b post e _ He. change ([] ++ b :: post) with (b :: post).
      rewrite run_blocks_cons.
      destruct b as [t r], w as [d tr]. cbn [on_disk trace fst snd] in *.
      unfold bind. rewrite fix_block_run. cbn [on_disk trace].
      rewrite He. cbn [app foldl flat_map].
      unfold block_report, block_error in *. cbn [fst snd] in *.
      destruct (file_at d t) as [[[c|] [| |kept]]|]; try done;
        by rewrite app_nil_r.
  - rewrite fmap_cons in Hd. apply distinct_files_cons in Hd as [Hne' Hd].
    assert (Hne : forall b, b ∈ pre ->
                    target (on_disk w) b.1 <> target (on_disk w) a.1).
    { intros b Hb. apply Hne'. apply list_elem_of_fmap. by exists b. }
    set (w1 := World (block_after (on_disk w) a)
                     (trace w ++ block_report (on_disk w) a)).
    assert (Hstep : final_fix.fix_block a.1 a.2 w = (Value tt, w1)).
    { rewrite fix_block_run. rewrite (Hok a) by (apply elem_of_cons; by left).
      by destruct a. }
    assert (Hd1 : distinct_files (on_disk w1) pre.*1).
    { unfold distinct_files, w1. cbn [on_disk].
      by rewrite targets_block_after. }
    assert (Hok1 : forall b, b ∈ pre -> block_error (on_disk w1) b.1 = None).
    { intros b Hb. unfold w1. cbn [on_disk]. rewrite block_error_after by auto.
      apply Hok. apply elem_of_cons. by right. }
    destruct (IH w1 Hd1 Hok1) as [IH1 IH2].
    assert (Hrep : flat_map (block_report (on_disk w1)) pre
                   = flat_map (block_report (on_disk w)) pre).
    { apply flat_map_ext_elem. intros b Hb. unfold w1. cbn [on_disk].
      apply block_report_after. auto. }
    split.
    + rewrite run_blocks_cons. unfold bind at 1. rewrite Hstep, IH1, Hrep.
      unfold w1. cbn [on_disk trace foldl flat_map].
      by rewrite <- app_assoc.
    + intros b post e Hd' He.
      change ((a :: pre) ++ b :: post) with (a :: (pre ++ b :: post)).
      rewrite run_blocks_cons. unfold bind at 1. rewrite Hstep.
      change ((a :: pre) ++ [b]) with (a :: (pre ++ [b])) in Hd'.
      rewrite fmap_cons in Hd'. apply distinct_files_cons in Hd' as [Hb Hd'].
      assert (Hba : target (on_disk w) b.1 <> target (on_disk w) a.1).
      { apply Hb. apply list_elem_of_fmap. exists b. split; [done|].
        apply elem_of_app. right. apply elem_of_cons. by left. }
      rewrite (IH2 b post e), ?Hrep.
      * unfold w1. cbn [on_disk trace foldl flat_map app].
        by rewrite <- app_assoc.
      * unfold distinct_files, w1. cbn [on_disk].
        by rewrite targets_block_after.
      * unfold w1. cbn [on_disk]. by rewrite block_error_after.
Qed.

Lemma final_fix_main_run w :
  final_fix.main w =
    match run_blocks final_fix_blocks
            (World (on_disk w) (trace w ++ [Printed MStart])) with
    | (Value _, w2) =>
        (Value tt,
         World (on_disk w2)
               (trace w2 ++ [ Printed MDone; Printed MTypecheck;
                              System "npm run typecheck" ]))
    | (Raised e, w2) => (Raised e, w2)
    end.
Proof.
  unfold final_fix.main. rewrite fix_specific_errors_blocks.
  unfold bind, print, os_system, emit.
  destruct (run_blocks _ _) as [[[]|e] w2]; simpl; [|done].
  by rewrite <- !app_assoc.
Qed.

(** Whatever happens, the blocks change no file that none of their
    targets names, create no file and remove none, and leave the links
    alone. *)
Lemma run_blocks_frame : forall bs w0,
  (forall p, target (on_disk w0) p ∉ target (on_disk w0) <$> bs.*1 ->
     file_at (on_disk (run_blocks bs w0).2) p = file_at (on_disk w0) p) /\
  (forall p, is_Some (file_at (on_disk (run_blocks bs w0).2) p)
             <-> is_Some (file_at (on_disk w0) p)) /\
  links (on_disk (run_blocks bs w0).2) = links (on_disk w0).
Proof.
  induction bs as [|b bs IH]; intros w0; [by repeat split|].
  rewrite run_blocks_cons. unfold bind. rewrite fix_block_run.
  set (w1 := World _ _).
  assert (H1 : forall p, is_Some (file_at (on_disk w1) p)
                         <-> is_Some (file_at (on_disk w0) p)).
  { intros p. unfold w1. cbn [on_disk]. rewrite file_at_block_after.
    cbn [fst snd].
    destruct (decide (target (on_disk w0) p = target (on_disk w0) b.1))
      as [H|]; [|tauto].
    rewrite rewritten_is_Some. unfold file_at. by rewrite H. }
  assert (H2 : links (on_disk w1) = links (on_disk w0)).
  { unfold w1. cbn [on_disk]. destruct b. apply links_block_after. }
  assert (H3 : forall p,
             target (on_disk w0) p <> target (on_disk w0) b.1 ->
             file_at (on_disk w1) p = file_at (on_disk w0) p).
  { intros p Hp. unfold w1. cbn [on_disk].
    by rewrite file_at_block_after_ne. }
  destruct (block_error (on_disk w0) b.1).
  - cbn [snd]. split; [|by split].
    intros p Hp. rewrite !fmap_cons in Hp.
    apply not_elem_of_cons in Hp as [Hp _]. by apply H3.
  - destruct (IH w1) as (IHa & IHb & IHc). split; [|split].
    + intros p Hp. rewrite !fmap_cons in Hp.
      apply not_elem_of_cons in Hp as [Hp Hps]. rewrite IHa.
      * by apply H3.
      * unfold w1. cbn [on_disk]. destruct b.
        by rewrite targets_block_after, target_block_after.
    + intros p. rewrite IHb. apply H1.
    + by rewrite IHc.
Qed.

Lemma final_fix_distinct_plain fs : distinct_files (plain fs) final_fix_blocks.*1.
Proof.
  apply distinct_files_plain. apply (bool_decide_unpack _).
  vm_compute. exact I.
Qed.

(** When the targets of final_fix.py name pairwise different files and
    every target that exists can be read and written,
    [fix_specific_errors] ends normally; each existing target then holds
    the result of its own rule table on the text it held before, each
    missing target stays missing, every file that no target names is as
    it was, and the events are the write and the message of each existing
    target, in the order of the blocks. *)
Theorem fix_specific_errors_rewrites_targets (w : world) :
  distinct_files (on_disk w) final_fix_blocks.*1 ->
  (forall b, b ∈ final_fix_blocks -> block_error (on_disk w) b.1 = None) ->
  exists w',
    final_fix.fix_specific_errors w = (Value tt, w') /\
    (forall target rules, (target, rules) ∈ final_fix_blocks ->
       file_at (on_disk w') target
       = rewritten rules (file_at (on_disk w) target)) /\
    (forall p, ~ reaches (on_disk w) final_fix_blocks.*1 p ->
       file_at (on_disk w') p = file_at (on_disk w) p) /\
    trace w' = trace w ++ flat_map (block_report (on_disk w)) final_fix_blocks.
Proof.
  intros Hd Hok. rewrite fix_specific_errors_blocks.
  destruct (run_blocks_run final_fix_blocks w Hd Hok) as [-> _].
  eexists. split; [reflexivity|]. cbn [on_disk trace].
  repeat split.
  - intros target rules Hin. by apply foldl_block_after_lookup.
  - intros p Hp. by apply foldl_block_after_frame.
Qed.

Lemma fix_specific_errors_rewrites_targets_witness :
  let w := World (Disk {[ txt "README.md" := txt "docs/readme.md" ]}
                       {[ final_fix.unblock_file :=
                            File (Some (txt "x as unknown[0]")) Writable ]})
                 [] in
  exists w',
    final_fix.fix_specific_errors w = (Value tt, w') /\
    file_at (on_disk w') final_fix.unblock_file
    = rewritten unblock_rules (file_at (on_disk w) final_fix.unblock_file).
Proof.
  intros w.
  destruct (fix_specific_errors_rewrites_targets w) as (w' & Hrun & H & _).
  - apply (bool_decide_unpack _). vm_compute. exact I.
  - intros b Hb. unfold final_fix_blocks in Hb.
    rewrite !elem_of_cons, elem_of_nil in Hb.
    repeat (destruct Hb as [->|Hb]; [vm_compute; reflexivity|]). done.
  - exists w'. split; [done|]. apply H.
    unfold final_fix_blocks. rewrite !elem_of_cons. auto 10.
Defined.

(** When the targets of final_fix.py name pairwise different files and a
    target exists but cannot be read or cannot be written, the run ends
    there with that error: the blocks before it have been carried out; the
    failing target is as it was when it could not be read or opened for
    writing, and holds what the failed write left of the new text when it
    was truncated first; every later target is as it was; the closing
    messages are not printed and the type check is not started. *)
Theorem fix_specific_errors_stops_at_first_error
    (pre post : list (path * list rule)) (b : path * list rule)
    (e : exn) (w : world) :
  final_fix_blocks = pre ++ b :: post ->
  distinct_files (on_disk w) final_fix_blocks.*1 ->
  (forall a, a ∈ pre -> block_error (on_disk w) a.1 = None) ->
  block_error (on_disk w) b.1 = Some e ->
  exists w',
    final_fix.main w = (Raised e, w') /\
    trace w' = trace w ++ Printed MStart
                 :: flat_map (block_report (on_disk w)) pre /\
    (forall target rules, (target, rules) ∈ pre ->
       file_at (on_disk w') target
       = rewritten rules (file_at (on_disk w) target)) /\
    file_at (on_disk w') b.1
    = match file_at (on_disk w) b.1 with
      | Some (File (Some c) (Failing kept)) =>
          Some (File (kept (apply_rules b.2 c)) (Failing kept))
      | f => f
      end /\
    (forall a, a ∈ post ->
       file_at (on_disk w') a.1 = file_at (on_disk w) a.1) /\
    (forall p, ~ reaches (on_disk w) (pre ++ [b]).*1 p ->
       file_at (on_disk w') p = file_at (on_disk w) p).
Proof.
  intros Hsplit Hd Hok He.
  rewrite Hsplit in Hd.
  assert (Hd2 : distinct_files (on_disk w) (pre ++ [b]).*1).
  { unfold distinct_files in *.
    replace (pre ++ b :: post) with ((pre ++ [b]) ++ post) in Hd
      by (by rewrite <- app_assoc).
    rewrite !fmap_app in Hd. rewrite !fmap_app.
    by apply NoDup_app in Hd as [? _]. }
  assert (Hpre : distinct_files (on_disk w) pre.*1).
  { unfold distinct_files in *. rewrite !fmap_app in Hd2.
    by apply NoDup_app in Hd2 as [? _]. }
  unfold final_fix.main. rewrite fix_specific_errors_blocks, Hsplit.
  unfold bind at 1, print at 1, emit.
  set (w1 := World (on_disk w) (trace w ++ [Printed MStart])).
  destruct (run_blocks_run pre w1 Hpre Hok) as [_ H].
  unfold bind at 1. rewrite (H b post e Hd2 He).
  eexists. split; [reflexivity|]. unfold w1. cbn [on_disk trace].
  repeat split.
  - by rewrite <- app_assoc.
  - intros target rules Hin. apply foldl_block_after_lookup; [done|].
    apply elem_of_app. by left.
  - rewrite (foldl_block_after_lookup _ _ b.1 b.2 Hd2).
    + unfold block_error in He. unfold rewritten.
      by destruct (file_at (on_disk w) b.1) as [[[c|] [| |kept]]|].
    + apply elem_of_app. right. apply elem_of_cons. left. by destruct b.
  - intros a Ha. apply foldl_block_after_frame.
    unfold distinct_files in Hd.
    replace (pre ++ b :: post) with ((pre ++ [b]) ++ post) in Hd
      by (by rewrite <- app_assoc).
    rewrite !fmap_app in Hd. apply NoDup_app in Hd as (_ & Hdis & _).
    intros Hin. rewrite !fmap_app in Hin. apply (Hdis _ Hin).
    apply list_elem_of_fmap. exists a.1. split; [done|].
    apply list_elem_of_fmap. by exists a.
  - intros p Hp. by apply foldl_block_after_frame.
Qed.

Lemma fix_specific_errors_stops_at_first_error_witness :
  let w := World (plain
                   (<[ final_fix.cache_file :=
                         File (Some (txt "if (cleanedSize, 10) {")) Writable ]>
                   (<[ final_fix.filemanager_file :=
                         File (Some (txt "}[] = [0];"))
                              (Failing (fun _ => Some [])) ]>
                      {[ final_fix.tray_file :=
                           File (Some (txt "as MenuItemConstructorOptions[0]"))
                                Writable ]}))) [] in
  exists w',
    final_fix.main w = (Raised (WriteError final_fix.filemanager_file), w') /\
    file_at (on_disk w') final_fix.filemanager_file
    = Some (File (Some []) (Failing (fun _ => Some []))) /\
    file_at (on_disk w') final_fix.tray_file
    = file_at (on_disk w) final_fix.tray_file.
Proof.
  intros w.
  destruct (fix_specific_errors_stops_at_first_error
              [(final_fix.cache_file, cache_rules)]
              (drop 2 final_fix_blocks)
              (final_fix.filemanager_file, filemanager_rules)
              (WriteError final_fix.filemanager_file) w)
    as (w' & Hrun & _ & _ & Hb & Hpost & _).
  - reflexivity.
  - apply final_fix_distinct_plain.
  - intros a Ha. apply list_elem_of_singleton in Ha as ->.
    vm_compute. reflexivity.
  - vm_compute. reflexivity.
  - exists w'. split; [done|]. split; [exact Hb|].
    apply (Hpost (final_fix.tray_file, tray_rules)).
    apply elem_of_cons. by left.
Defined.

(** final_fix.py, whatever the disk holds and however the run ends,
    changes no file other than those its seven targets name, creates no
    file and removes none, and leaves every link as it is. *)
Theorem final_fix_touches_only_targets (w : world) :
  (forall p, ~ reaches (on_disk w) final_fix_blocks.*1 p ->
     file_at (on_disk (final_fix.main w).2) p = file_at (on_disk w) p) /\
  (forall p, is_Some (file_at (on_disk (final_fix.main w).2) p)
             <-> is_Some (file_at (on_disk w) p)) /\
  links (on_disk (final_fix.main w).2) = links (on_disk w).
Proof.
  rewrite final_fix_main_run.
  set (w1 := World (on_disk w) (trace w ++ [Printed MStart])).
  destruct (run_blocks_frame final_fix_blocks w1) as (Ha & Hb & Hc).
  destruct (run_blocks final_fix_blocks w1) as [[[]|e] w2] eqn:E;
    cbn [snd on_disk] in *; repeat split; auto; apply Hb.
Qed.

Lemma final_fix_touches_only_targets_witness :
  let w := World (Disk {[ txt "NOTES.md" := final_fix.tray_file ]}
                    (<[ txt "README.md" := File (Some (txt "x[0]")) Writable ]>
                       (<[ final_fix.tray_file :=
                             File (Some (txt "x[0]")) Writable ]>
                          {[ final_fix.cache_file := File None Writable ]})))
                 [] in
  file_at (on_disk (final_fix.main w).2) (txt "README.md")
  = file_at (on_disk w) (txt "README.md").
Proof.
  intros w. apply (proj1 (final_fix_touches_only_targets w)).
  unfold reaches. apply (bool_decide_unpack _). vm_compute. exact I.
Defined.

(** *** The main functions of simple_fix.py and smart_fix.py *)

Lemma loop_events_writes_le repair su : forall l d,
  length (List.filter is_write (loop_events repair su d l)) <= length l.
Proof.
  induction l as [|p l IH]; intros d; simpl; [done|].
  rewrite List.filter_app, length_app, report_writes.
  specialize (IH (after repair d p)).
  destruct (fixable repair d p); lia.
Qed.

Lemma precise_events_writes_le U : forall l d,
  length (List.filter is_write (precise_events U d l)) <= length l.
Proof.
  induction l as [|p l IH]; intros d; simpl; [done|].
  rewrite List.filter_app, length_app, precise_report_writes.
  specialize (IH (after (fun _ => fix_specific_typescript_errors U) d p)).
  destruct (fixable _ d p); lia.
Qed.

Section Mains.
Variable glob : string -> list path.
Variable list_of_set : gset path -> list path.
Hypothesis list_of_set_perm : forall X, list_of_set X ≡ₚ elements X.

Lemma resolve_NoDup patterns : NoDup (resolve glob list_of_set patterns).
Proof. unfold resolve. rewrite list_of_set_perm. apply NoDup_elements. Qed.

(** [main] of simple_fix.py and of smart_fix.py always ends normally.  It
    prints the banner and the number of candidate paths, none of them
    twice, runs [fix_file] on the candidates one by one, each on the disk
    the earlier ones have left, prints as summary the number of writes
    that went through, and starts the type check last, whether or not a
    file failed.  It creates and removes no file, and a file that no
    candidate names is as it was.  When the candidates name pairwise
    different files, each of them is handled as on the disk the run
    started from and ends as [fix_file] alone would leave it. *)
Theorem main_handles_every_candidate (alnum_hi : char -> bool) (w : world) :
  forall repair su main cands,
    (repair, su, main, cands)
    ∈ [ (fun _ : path => simple_fix, true, simple_fix.main glob list_of_set,
         resolve glob list_of_set simple_fix.patterns);
        (smart_repair alnum_hi, false,
         smart_fix.main alnum_hi glob list_of_set,
         resolve glob list_of_set smart_fix.patterns) ] ->
    NoDup cands /\
    exists w',
      main w = (Value tt, w') /\
      trace w' = trace w
                 ++ [Printed MStart; Printed (MFound (length cands))]
                 ++ loop_events repair su (on_disk w) cands
                 ++ closing (length (List.filter is_write
                       (loop_events repair su (on_disk w) cands))) /\
      length (List.filter is_write (loop_events repair su (on_disk w) cands))
        <= length cands /\
      (forall p, ~ reaches (on_disk w) cands p ->
         file_at (on_disk w') p = file_at (on_disk w) p) /\
      (forall p, file_at (on_disk w') p = None
                 <-> file_at (on_disk w) p = None) /\
      links (on_disk w') = links (on_disk w) /\
      (distinct_files (on_disk w) cands ->
         loop_events repair su (on_disk w) cands
           = flat_map (report repair su (on_disk w)) cands /\
         forall p, p ∈ cands ->
           file_at (on_disk w') p = repaired repair p (file_at (on_disk w) p)).
Proof.
  intros repair su main cands Hin.
  assert (Hrun : NoDup cands /\
            main w = (Value tt,
              World (foldl (after repair) (on_disk w) cands)
                (trace w
                 ++ [Printed MStart; Printed (MFound (length cands))]
                 ++ loop_events repair su (on_disk w) cands
                 ++ closing (length (List.filter is_write
                       (loop_events repair su (on_disk w) cands)))))).
  { rewrite !elem_of_cons, elem_of_nil in Hin.
    destruct Hin as [[= -> -> -> ->]|[[= -> -> -> ->]|[]]].
    - split; [apply resolve_NoDup|apply simple_main_run].
    - split; [apply resolve_NoDup|apply smart_main_run]. }
  destruct Hrun as [Hnd Hrun]. split; [done|].
  eexists. split; [exact Hrun|]. cbn [on_disk trace].
  split; [done|]. split; [apply loop_events_writes_le|].
  split; [intros p Hp; by apply foldl_after_frame|].
  split; [intros p; apply foldl_after_missing|].
  split; [apply links_foldl_after|].
  intros Hd. split; [by apply loop_events_distinct|].
  intros p Hp. by apply foldl_after_lookup.
Qed.
End Mains.

Lemma main_handles_every_candidate_witness :
  let w := World (Disk {[ txt "docs/a.ts" := txt "src/a.ts" ]}
                    (<[ txt "src/a.ts" :=
                          File (Some (txt "if (cleanedSize, 10)")) Writable ]>
                       {[ txt "src/a.d.ts" := File None Writable ]})) [] in
  let cands := resolve overlapping_glob elements simple_fix.patterns in
  NoDup cands /\
  exists w',
    simple_fix.main overlapping_glob elements w = (Value tt, w') /\
    trace w' = trace w
       ++ [Printed MStart; Printed (MFound (length cands))]
       ++ loop_events (fun _ => simple_fix) true (on_disk w) cands
       ++ closing (length (List.filter is_write
             (loop_events (fun _ => simple_fix) true (on_disk w) cands))).
Proof.
  intros w cands.
  destruct (main_handles_every_candidate overlapping_glob elements
              (fun X => reflexivity (elements X)) (fun _ => false) w
              (fun _ => simple_fix) true
              (simple_fix.main overlapping_glob elements) cands)
    as (Hnd & w' & Hrun & Htr & _).
  - apply elem_of_cons. by left.
  - split; [done|]. exists w'. by split.
Defined.

(** *** The main function of final_precise_fix.py *)

(** [main] of final_precise_fix.py always ends normally.  For each of its
    three paths, in order, it prints that the path is missing or runs
    [fix_file] on it, on the disk the earlier paths have left; then it
    prints as summary the number of writes that went through, at most
    three, and starts the type check.  It creates and removes no file, and
    a file that none of the three paths names is as it was.  When the
    three paths name different files, each is handled as on the disk the
    run started from and ends as [fix_file] alone would leave it. *)
Theorem precise_main_handles_problem_files (alnum_hi : char -> bool)
    (w : world) :
  exists w',
    final_precise_fix.main alnum_hi w = (Value tt, w') /\
    trace w' = trace w
               ++ [Printed MStart]
               ++ precise_events alnum_hi (on_disk w)
                    final_precise_fix.problem_files
               ++ closing (length (List.filter is_write
                     (precise_events alnum_hi (on_disk w)
                        final_precise_fix.problem_files))) /\
    length (List.filter is_write
              (precise_events alnum_hi (on_disk w)
                 final_precise_fix.problem_files)) <= 3 /\
    (forall p, ~ reaches (on_disk w) final_precise_fix.problem_files p ->
       file_at (on_disk w') p = file_at (on_disk w) p) /\
    (forall p, file_at (on_disk w') p = None
               <-> file_at (on_disk w) p = None) /\
    links (on_disk w') = links (on_disk w) /\
    (distinct_files (on_disk w) final_precise_fix.problem_files ->
       precise_events alnum_hi (on_disk w) final_precise_fix.problem_files
         = flat_map (precise_report alnum_hi (on_disk w))
             final_precise_fix.problem_files /\
       forall p, p ∈ final_precise_fix.problem_files ->
         file_at (on_disk w') p
         = repaired (fun _ => fix_specific_typescript_errors alnum_hi) p
             (file_at (on_disk w) p)).
Proof.
  rewrite precise_main_run. eexists. split; [reflexivity|].
  cbn [on_disk trace].
  split; [done|].
  split; [apply (precise_events_writes_le alnum_hi
                   final_precise_fix.problem_files)|].
  split; [intros p Hp; by apply foldl_after_frame|].
  split; [intros p; apply foldl_after_missing|].
  split; [apply links_foldl_after|].
  intros Hd. split; [by apply precise_events_distinct|].
  intros p Hp. by apply foldl_after_lookup.
Qed.

(** *** Which files get the Vue rules *)

Lemma endswith_spec (p suffix : text) :
  endswith p suffix = true <-> exists stem, p = stem ++ suffix.
Proof.
  unfold endswith. rewrite andb_true_iff, Nat.leb_le, bool_decide_eq_true.
  split.
  - intros [Hle Hdrop]. exists (take (length p - length suffix) p).
    rewrite <- (take_drop (length p - length suffix) p) at 1.
    by rewrite Hdrop.
  - intros [stem ->]. rewrite length_app. split; [lia|].
    replace (length stem + length suffix - length suffix)
      with (length stem) by lia.
    by rewrite drop_app_length.
Qed.

(** [fix_file] of smart_fix.py, on a file that can be read and written:
    when the path ends in [.vue] the file is compared with, and rewritten
    to, the result of the Vue rules on the result of the TypeScript rules;
    for every other path the Vue rules play no part, and the file is
    compared with and rewritten to the result of the TypeScript rules
    alone. *)
Theorem vue_rules_for_vue_paths_only (alnum_hi : char -> bool)
    (file_path : path) (content : text) (w : world) :
  file_at (on_disk w) file_path = Some (File (Some content) Writable) ->
  let outcome_for := fun new : text =>
    if bool_decide (new = content) then (Value false, w)
    else (Value true,
          World (store (on_disk w) file_path (File (Some new) Writable))
                (trace w ++ [Written file_path new;
                             Printed (MFixed file_path)])) in
  ((exists stem, file_path = stem ++ txt ".vue") ->
   smart_fix.fix_file alnum_hi file_path w
   = outcome_for (fix_vue_syntax (fix_typescript_syntax alnum_hi content))) /\
  ((forall stem, file_path <> stem ++ txt ".vue") ->
   smart_fix.fix_file alnum_hi file_path w
   = outcome_for (fix_typescript_syntax alnum_hi content)).
Proof.
  intros Hf outcome_for.
  assert (Hrun : forall new,
            smart_repair alnum_hi file_path content = new ->
            smart_fix.fix_file alnum_hi file_path w = outcome_for new).
  { intros new Hnew.
    change (smart_fix.fix_file alnum_hi)
      with (fix_file_with (smart_repair alnum_hi) false).
    rewrite fix_file_with_run. unfold fixable, after, report, outcome_for.
    rewrite Hf, Hnew. unfold text_ne.
    destruct (bool_decide (new = content)); simpl.
    - destruct w. simpl. by rewrite app_nil_r.
    - done. }
  split; intros H; apply Hrun; unfold smart_repair.
  - apply endswith_spec in H. by rewrite H.
  - destruct (endswith file_path (txt ".vue")) eqn:E; [|done].
    apply endswith_spec in E as [stem ->]. by destruct (H stem).
Qed.

Lemma vue_rules_for_vue_paths_only_witness :
  let vue := txt "src/App.vue" in
  let ts := txt "src/App.vue.ts" in
  let c := txt "watch(() => {(a) =>" in
  let w := World (plain (<[ vue := File (Some c) Writable ]>
                           {[ ts := File (Some c) Writable ]})) [] in
  smart_fix.fix_file (fun _ => false) vue w
  = (Value true,
     World (store (on_disk w) vue
              (File (Some (txt "watch(() => {, (a) =>")) Writable))
           [Written vue (txt "watch(() => {, (a) =>"); Printed (MFixed vue)]) /\
  smart_fix.fix_file (fun _ => false) ts w = (Value false, w).
Proof.
  intros vue ts c w. split.
  - refine (proj1 (vue_rules_for_vue_paths_only (fun _ => false) vue c w _) _).
    + vm_compute. reflexivity.
    + by exists (txt "src/App").
  - refine (proj2 (vue_rules_for_vue_paths_only (fun _ => false) ts c w _) _).
    + vm_compute. reflexivity.
    + intros stem Hstem.
      apply (f_equal (fun l => drop (length l - 4) l)) in Hstem.
      rewrite length_app in Hstem. simpl length in Hstem.
      replace (length stem + 4 - 4) with (length stem) in Hstem by lia.
      rewrite drop_app_length in Hstem. vm_compute in Hstem. discriminate.
Defined.

(** *** Empty files *)

Ltac in_tables :=
  unfold all_tables, final_fix_tables; simpl; rewrite !elem_of_cons; auto 15.

(** An empty text is left empty by every rule table; so the three
    [fix_file] functions return [False] for an empty file and do not
    write it. *)
Theorem empty_file_is_left_alone (alnum_hi : char -> bool) :
  (forall rs, rs ∈ all_tables alnum_hi -> apply_rules rs [] = []) /\
  (forall repair fixf p acc w,
     (repair, fixf) ∈ variants alnum_hi ->
     file_at (on_disk w) p = Some (File (Some []) acc) ->
     exists msgs,
       fixf p w = (Value false, World (on_disk w) (trace w ++ msgs)) /\
       List.filter is_write msgs = []).
Proof.
  assert (Hall : forall rs, rs ∈ all_tables alnum_hi -> apply_rules rs [] = []).
  { intros rs Hrs. apply unchanged_without_triggers; [|reflexivity].
    unfold all_tables, final_fix_tables in Hrs. simpl in Hrs.
    rewrite !elem_of_cons, elem_of_nil in Hrs.
    repeat (destruct Hrs as [->|Hrs]; [reflexivity|]). done. }
  split; [exact Hall|].
  intros repair fixf p acc w Hv Hp.
  assert (Hrep : repair p [] = []).
  { unfold variants in Hv. rewrite !elem_of_cons, elem_of_nil in Hv.
    destruct Hv as [[= -> ->]|[[= -> ->]|[[= -> ->]|[]]]].
    - apply Hall. in_tables.
    - unfold smart_repair.
      replace (fix_typescript_syntax alnum_hi []) with (@nil char).
      + destruct (endswith p (txt ".vue")); [|done].
        apply Hall. in_tables.
      + symmetry. apply Hall. in_tables.
    - apply Hall. in_tables. }
  apply variants_shape in Hv as [su ->].
  rewrite fix_file_with_run. unfold fixable, after, report.
  rewrite Hp, Hrep, text_ne_same.
  exists (if su then [Printed (MUnchanged p)] else []).
  split; [by destruct acc|by destruct su].
Qed.

Lemma empty_file_is_left_alone_witness :
  let w := World (plain {[ txt "src/empty.ts" := File (Some []) Writable ]})
                 [] in
  exists msgs,
    simple_fix.fix_file (txt "src/empty.ts") w
    = (Value false, World (on_disk w) (trace w ++ msgs)) /\
    List.filter is_write msgs = [].
Proof.
  intros w.
  apply (proj2 (empty_file_is_left_alone (fun _ => false))
           (fun _ => simple_fix) simple_fix.fix_file (txt "src/empty.ts")
           Writable w).
  - unfold variants. apply elem_of_cons. by left.
  - vm_compute. reflexivity.
Defined.
